(** * Pulse-rate-variability metrics of PRV/prv.py

    A shallow embedding of the windowing engine [chunckData], of the five
    reducers [rmssd], [sdnn], [nn50], [pnn50], [hrMaxMin] and of the five
    entry points [getRMSSD] ... [getSDNN], followed by the properties the
    specification states about them.

    Numbers.  The source computes on numpy float64 arrays.  Timestamps,
    intervals and window sizes are modelled as rationals ([Q], exact
    arithmetic, decidable comparisons, so every definition below that does
    not take a square root evaluates); a square root is taken in [R].
    Rounding, [inf] and [nan] are outside the model: [60 / 0] and [np.std]
    of an empty array have no faithful value here.  Identities that would
    hold only because the arithmetic is exact are not stated, and no theorem
    computes with [sdnn], whose value in the program depends on how numpy
    rounds and adds.  Equality of rationals is [Qeq] ([==]) wherever a value
    is computed rather than copied from the input. *)

From Stdlib Require Import List Arith ZArith QArith Qminmax Qabs Lia Bool.
From Stdlib Require Import Reals Qreals Permutation Lra Lqa.
Import ListNotations.

Local Open Scope Q_scope.

(** ** Exceptions *)

Module Py.

(** The only exception the modelled code can raise: [pnn50] divides two
    Python ints.  Indexing never leaves the range of the loop that drives
    it, and slicing never raises. *)
Inductive exn : Type :=
| ZeroDivisionError.

Inductive result (A : Type) : Type :=
| Ok (a : A)
| Raise (e : exn).

Arguments Ok {A} a.
Arguments Raise {A} e.

Definition bind {A B} (m : result A) (k : A -> result B) : result B :=
  match m with
  | Ok a => k a
  | Raise e => Raise e
  end.

(** [for x in xs: st = body st x], stopping at the first exception. *)
Fixpoint for_each {St X} (body : St -> X -> result St) (xs : list X) (st : St)
  : result St :=
  match xs with
  | [] => Ok st
  | x :: xs' => bind (body st x) (for_each body xs')
  end.

(** [range(a, b)] for [0 <= a]. *)
Definition range (a b : nat) : list nat := seq a (b - a).

(** Index normalisation of a slice bound: a negative bound counts from the
    end, and every bound is clamped into [0, len]. *)
Definition slice_bound (len i : Z) : Z :=
  if (i <? 0)%Z then Z.max 0 (len + i) else Z.min i len.

(** [l[start:stop]] *)
Definition slice {A} (l : list A) (start stop : Z) : list A :=
  let len := Z.of_nat (length l) in
  let a := slice_bound len start in
  let b := slice_bound len stop in
  firstn (Z.to_nat (b - a)) (skipn (Z.to_nat a) l).

End Py.

Import Py.

Notation "x <- m ;; k" := (bind m (fun x => k))
  (at level 61, m at next level, right associativity).

(** A reducer that cannot raise, used where a fallible one is expected. *)
Definition total {V} (f : list Q -> V) : list Q -> result V :=
  fun ibi => Ok (f ibi).

(** ** The windowing engine *)

(** The [pd.DataFrame] the engine returns: three columns. *)
Record DataFrame (V : Type) : Type := mkFrame {
  startTime : list Q;
  endTime : list Q;
  values : list V
}.

Arguments mkFrame {V} _ _ _.
Arguments startTime {V} _.
Arguments endTime {V} _.
Arguments values {V} _.

(** One row of the frame. *)
Record MetricRecord (V : Type) : Type := mkRecord {
  windowStart : Q;
  windowEnd : Q;
  value : V
}.

Arguments mkRecord {V} _ _ _.
Arguments windowStart {V} _.
Arguments windowEnd {V} _.
Arguments value {V} _.

Fixpoint zip_rows {V} (ss es : list Q) (vs : list V) : list (MetricRecord V) :=
  match ss, es, vs with
  | s :: ss', e :: es', v :: vs' => mkRecord s e v :: zip_rows ss' es' vs'
  | _, _, _ => []
  end.

Definition rows {V} (df : DataFrame V) : list (MetricRecord V) :=
  zip_rows (startTime df) (endTime df) (values df).

Section Engine.
Context {V : Type}.
Variables (time data : list Q) (window_size : Q).
Variable operation : list Q -> result V.

(** The loop variables: [start_index], [values], [start_time], [end_time]. *)
Record loop_state : Type := mkState {
  start_index : nat;
  st_values : list V;
  st_start_time : list Q;
  st_end_time : list Q
}.

(** [time[i]] for [i] inside [range(0, len(time))]. *)
Definition at_time (i : nat) : Q := nth i time 0.

Definition chunck_body (st : loop_state) (t : nat) : result loop_state :=
  if Qle_bool window_size (at_time t - at_time (start_index st)) then
    let window := slice data (Z.of_nat (start_index st)) (Z.of_nat t - 1) in
    if (0 <? length window)%nat then
      _operation <- operation window ;;
      Ok (mkState t
                  (st_values st ++ [_operation])
                  (st_start_time st ++ [at_time (start_index st)])
                  (st_end_time st ++ [at_time t]))
    else
      Ok (mkState t (st_values st) (st_start_time st) (st_end_time st))
  else Ok st.

Definition chunck_loop : result loop_state :=
  for_each chunck_body (range 0 (length time)) (mkState 0 [] [] []).

Definition chunckData : result (DataFrame V) :=
  st <- chunck_loop ;;
  Ok (mkFrame (st_start_time st) (st_end_time st) (st_values st)).

End Engine.

Arguments mkState {V} _ _ _ _.

(** ** Reducers *)

Definition Qlt_bool (a b : Q) : bool := negb (Qle_bool b a).

(** [ibi[i]] for [i] inside the range of the loop that reads it. *)
Definition at_ibi (ibi : list Q) (i : nat) : Q := nth i ibi 0.

(** The accumulation loop of [rmssd]. *)
Definition rmssd_sum (ibi : list Q) : Q :=
  fold_left
    (fun sum i =>
       sum + ((at_ibi ibi i - at_ibi ibi (i - 1))
              * (at_ibi ibi i - at_ibi ibi (i - 1))))
    (range 1 (length ibi)) 0.

Definition rmssd (ibi : list Q) : R :=
  let sum := rmssd_sum ibi in
  if Qlt_bool 0 sum
  then sqrt (Q2R (sum / inject_Z (Z.of_nat (length ibi) - 1)))
  else 0%R.

Definition Qsum (a : list Q) : Q := fold_right Qplus 0 a.

Definition np_mean (a : list Q) : Q :=
  Qsum a / inject_Z (Z.of_nat (length a)).

(** Modelled from the spec: [np.std] is numpy's, not this repository's.  The
    specification calls SDNN the population standard deviation of the
    interval values, which is numpy's documented
    [sqrt(mean(abs(a - a.mean())**2))]. *)
Definition np_std (a : list Q) : R :=
  let m := np_mean a in
  sqrt (Q2R (np_mean (map (fun x => Qabs (x - m) * Qabs (x - m)) a))).

Definition sdnn (ibi : list Q) : R := np_std ibi.

Definition nn50 (ibi : list Q) : Z :=
  fold_left
    (fun nn50 i =>
       if Qlt_bool 0.05 (at_ibi ibi i - at_ibi ibi (i - 1))
       then (nn50 + 1)%Z else nn50)
    (range 1 (length ibi)) 0%Z.

(** [/] on two Python ints: true division, raising on a zero divisor. *)
Definition int_truediv (a b : Z) : result Q :=
  if (b =? 0)%Z then Raise ZeroDivisionError
  else Ok (inject_Z a / inject_Z b).

Definition pnn50 (ibi : list Q) : result Q :=
  int_truediv (nn50 ibi * 100) (Z.of_nat (length ibi)).

(** The loop of [hrMaxMin] on the pair [(hrmax, hrmin)]. *)
Definition hr_body (ibi : list Q) (st : Q * Q) (i : nat) : Q * Q :=
  let '(hrmax, hrmin) := st in
  let hr := 60 / at_ibi ibi i in
  let hrmax := if Qlt_bool hrmax hr then hr else hrmax in
  let hrmin := if Qlt_bool hr hrmin then hr else hrmin in
  (hrmax, hrmin).

Definition hrMaxMin (ibi : list Q) : Q :=
  let '(hrmax, hrmin) :=
    fold_left (hr_body ibi) (range 0 (length ibi)) (0, 1000) in
  hrmax - hrmin.

(** ** Entry points *)

Definition getRMSSD (time data : list Q) : result (DataFrame R) :=
  chunckData time data 60 (total rmssd).

Definition getHRMaxMin (time data : list Q) : result (DataFrame Q) :=
  chunckData time data 120 (total hrMaxMin).

Definition getNN50 (time data : list Q) : result (DataFrame Z) :=
  chunckData time data 120 (total nn50).

Definition getPNN50 (time data : list Q) : result (DataFrame Q) :=
  chunckData time data 120 pnn50.

Definition getSDNN (time data : list Q) : result (DataFrame R) :=
  chunckData time data 60 (total sdnn).

(** ** The windowing algorithm as the specification words it *)

Section Chunk.
Context {V : Type}.
Variables (timestamps intervals : list Q) (windowSizeSeconds : Q).
Variable reduce : list Q -> V.

(** The intervals at positions [[a, b)]. *)
Definition positions (a b : nat) : list Q :=
  firstn (b - a) (skipn a intervals).

(** [scan n t windowStartIndex]: the records emitted by the [n] scan
    positions [t], [t+1], ..., in scan order. *)
Fixpoint scan (n t windowStartIndex : nat) : list (MetricRecord V) :=
  match n with
  | O => []
  | S n' =>
      if Qle_bool windowSizeSeconds
                  (nth t timestamps 0 - nth windowStartIndex timestamps 0)
      then
        match positions windowStartIndex (t - 1) with
        | [] => scan n' (S t) t
        | sl =>
            mkRecord (nth windowStartIndex timestamps 0) (nth t timestamps 0)
                     (reduce sl)
            :: scan n' (S t) t
        end
      else scan n' (S t) windowStartIndex
  end.

Definition chunk : list (MetricRecord V) := scan (length timestamps) 0 0.

(** [r] is the record of the window opened at position [s] and closed by
    the scan position [t]. *)
Definition closes (s t : nat) (r : MetricRecord V) : Prop :=
  windowSizeSeconds <= nth t timestamps 0 - nth s timestamps 0
  /\ positions s (t - 1) <> []
  /\ r = mkRecord (nth s timestamps 0) (nth t timestamps 0)
                  (reduce (positions s (t - 1))).

End Chunk.

(** The frame whose rows are the given records. *)
Definition frame_of {V} (rs : list (MetricRecord V)) : DataFrame V :=
  mkFrame (map windowStart rs) (map windowEnd rs) (map value rs).

(** ** Valid input: the data model of the specification *)

Fixpoint nondecreasing (l : list Q) : bool :=
  match l with
  | x :: (y :: _) as tl => Qle_bool x y && nondecreasing tl
  | _ => true
  end.

Definition valid_input (timestamps intervals : list Q) (w : Q) : bool :=
  (length timestamps =? length intervals)%nat
  && nondecreasing timestamps
  && forallb (Qlt_bool 0) intervals
  && Qlt_bool 0 w.

(** The sum of squared successive differences,
    [sum_{i=1}^{n-1} (x_i - x_{i-1})^2], as the specification writes it. *)
Definition successive_sq_sum (x : list Q) : Q :=
  Qsum (map (fun i => (nth i x 0 - nth (i - 1) x 0)
                      * (nth i x 0 - nth (i - 1) x 0))
            (seq 1 (length x - 1))).

(** The heart rates [60 / x_i] of a window, in beats per minute, and what it
    is to be their maximum and their minimum. *)
Definition heart_rates (x : list Q) : list Q := map (fun xi => 60 / xi) x.

Definition is_max (l : list Q) (M : Q) : Prop :=
  Exists (fun h => h == M) l /\ Forall (fun h => h <= M) l.

Definition is_min (l : list Q) (m : Q) : Prop :=
  Exists (fun h => h == m) l /\ Forall (fun h => m <= h) l.

(** The two updates of the loop of [hrMaxMin], on one heart rate. *)
Definition raise_to (hrmax hr : Q) : Q :=
  if Qlt_bool hrmax hr then hr else hrmax.

Definition lower_to (hrmin hr : Q) : Q :=
  if Qlt_bool hr hrmin then hr else hrmin.

(** The sequence with the elements at positions [i] and [j] exchanged. *)
Definition swap (i j : nat) (l : list Q) : list Q :=
  map (fun k => nth (if (k =? i)%nat then j
                     else if (k =? j)%nat then i else k) l 0)
      (seq 0 (length l)).

(** The adjacent-index pairs [(x_{i-1}, x_i)] of a sequence. *)
Fixpoint adjacent_pairs (x : list Q) : list (Q * Q) :=
  match x with
  | a :: (b :: _) as tl => (a, b) :: adjacent_pairs tl
  | _ => []
  end.

(** NN50 as the specification defines it: the number of adjacent pairs that
    differ by more than 0.05 s, whichever of the two is the larger. *)
Definition differing_pairs (x : list Q) : Z :=
  Z.of_nat (length (filter (fun p => Qlt_bool 0.05 (Qabs (snd p - fst p)))
                           (adjacent_pairs x))).

(** The number of adjacent pairs that rise by more than 0.05 s. *)
Definition rising_pairs (x : list Q) : Z :=
  Z.of_nat (length (filter (fun p => Qlt_bool 0.05 (snd p - fst p))
                           (adjacent_pairs x))).

(** The reducer applied to each window in turn, stopping at the first
    exception. *)
Fixpoint traverse {A B} (f : A -> result B) (xs : list A) : result (list B) :=
  match xs with
  | [] => Ok []
  | x :: xs' => y <- f x ;; ys <- traverse f xs' ;; Ok (y :: ys)
  end.

(** The reducer that returns its window: with it the [values] column holds
    the windows themselves. *)
Definition window_itself (ibi : list Q) : list Q := ibi.

(** The number of samples the windows hold together. *)
Definition samples_held (windows : list (list Q)) : nat :=
  length (concat windows).

(** The number of adjacent pairs that fall by more than 0.05 s. *)
Definition falling_pairs (x : list Q) : Z :=
  Z.of_nat (length (filter (fun p => Qlt_bool 0.05 (fst p - snd p))
                           (adjacent_pairs x))).

(** * Proofs *)

(** ** Evaluation *)

Example slice_examples :
  slice [1; 2; 3] 0 (-1) = [1; 2]
  /\ slice [1; 2; 3] 1 10 = [2; 3]
  /\ slice [1; 2; 3] 2 1 = []
  /\ slice [1; 2; 3] 0 (-5) = [].
Proof. repeat split. Qed.

(** Timestamps 0, 1, ..., 130 with the constant interval 1: two windows at
    60 s, one at 120 s. *)
Example constant_interval_series :
  let time := map (fun n => inject_Z (Z.of_nat n)) (seq 0 131) in
  let data := repeat 1 131 in
  chunckData time data 60 (total nn50)
  = Ok (mkFrame [0; 60] [60; 120] [0%Z; 0%Z])
  /\ chunckData time data 120 (total nn50) = Ok (mkFrame [0] [120] [0%Z]).
Proof. split; vm_compute; reflexivity. Qed.

(** The sample just before the one that closes a window is left out of it,
    and a window left without a sample emits nothing. *)
Example boundary_sample_excluded :
  chunckData [0; 30; 59; 60; 120; 150; 181]
             [0.8; 0.9; 1; 0.7; 0.6; 0.5; 0.4] 60 (total (fun ibi => ibi))
  = Ok (mkFrame [0; 120] [60; 181] [[0.8; 0.9]; [0.6]]).
Proof. vm_compute. reflexivity. Qed.

(** ** Comparisons *)

(** Closed comparisons of rationals, by evaluation. *)
Ltac qeval :=
  vm_compute; first [reflexivity | discriminate | intro; discriminate].

Lemma Qlt_bool_iff (a b : Q) : Qlt_bool a b = true <-> a < b.
Proof.
  unfold Qlt_bool. rewrite negb_true_iff.
  destruct (Qle_bool b a) eqn:E.
  - apply Qle_bool_iff in E. split; [discriminate | intros H; exfalso; lra].
  - split; [intros _ | reflexivity].
    destruct (Qlt_le_dec a b) as [H | H]; [exact H |].
    apply Qle_bool_iff in H. congruence.
Qed.

Lemma valid_input_spec (timestamps intervals : list Q) (w : Q) :
  valid_input timestamps intervals w = true ->
  length timestamps = length intervals
  /\ nondecreasing timestamps = true
  /\ Forall (fun x => 0 < x) intervals
  /\ 0 < w.
Proof.
  unfold valid_input. rewrite !andb_true_iff.
  intros [[[Hlen Hsorted] Hpos] Hw].
  repeat split.
  - now apply Nat.eqb_eq.
  - exact Hsorted.
  - apply Forall_forall. intros x Hx.
    rewrite forallb_forall in Hpos. now apply Qlt_bool_iff, Hpos.
  - now apply Qlt_bool_iff.
Qed.

(** ** Slices *)

Lemma slice_nonneg {A} (l : list A) (a b : nat) :
  slice l (Z.of_nat a) (Z.of_nat b) = firstn (b - a) (skipn a l).
Proof.
  unfold slice, slice_bound.
  destruct (Z.ltb_spec (Z.of_nat a) 0); [lia |].
  destruct (Z.ltb_spec (Z.of_nat b) 0); [lia |].
  destruct (Nat.le_gt_cases (length l) a) as [Ha | Ha].
  - rewrite (Z.min_r (Z.of_nat a)) by lia. rewrite Nat2Z.id.
    rewrite !skipn_all2 by lia. now rewrite !firstn_nil.
  - rewrite (Z.min_l (Z.of_nat a)) by lia. rewrite Nat2Z.id.
    destruct (Nat.le_gt_cases b (length l)) as [Hb | Hb].
    + rewrite (Z.min_l (Z.of_nat b)) by lia. f_equal. lia.
    + rewrite (Z.min_r (Z.of_nat b)) by lia.
      rewrite !firstn_all2; try reflexivity; rewrite length_skipn; lia.
Qed.

Lemma slice_positions (data : list Q) (s t : nat) :
  (1 <= t)%nat ->
  slice data (Z.of_nat s) (Z.of_nat t - 1) = positions data s (t - 1).
Proof.
  intros Ht. replace (Z.of_nat t - 1)%Z with (Z.of_nat (t - 1)) by lia.
  apply slice_nonneg.
Qed.

(** ** The loop of [chunckData] against [scan] *)

Lemma range_0 (n : nat) : range 0 n = seq 0 n.
Proof. unfold range. now rewrite Nat.sub_0_r. Qed.

Lemma for_each_app {St X} (body : St -> X -> result St) (xs ys : list X) st :
  for_each body (xs ++ ys) st = bind (for_each body xs st) (for_each body ys).
Proof.
  revert st. induction xs as [| x xs IH]; intros st; simpl; [reflexivity |].
  destruct (body st x); simpl; [apply IH | reflexivity].
Qed.

Section LoopScan.
Context {V : Type}.
Variables (time data : list Q) (window_size : Q).
Variable reduce : list Q -> V.

Let body := chunck_body time data window_size (total reduce).

(** From scan position [t >= 1] on, the loop appends to its three columns
    what [scan] emits. *)
Lemma loop_scan (n : nat) : forall (t : nat) (st : loop_state),
  (1 <= t)%nat ->
  let rs := scan time data window_size reduce n t (start_index st) in
  exists s',
    for_each body (seq t n) st
    = Ok (mkState s'
            (st_values st ++ map value rs)
            (st_start_time st ++ map windowStart rs)
            (st_end_time st ++ map windowEnd rs)).
Proof.
  induction n as [| n IH]; intros t st Ht; simpl.
  - exists (start_index st). rewrite !app_nil_r. now destruct st.
  - unfold body at 1, chunck_body, at_time.
    destruct (Qle_bool window_size _) eqn:Hclose.
    + rewrite slice_positions by exact Ht.
      destruct (positions data (start_index st) (t - 1)) as [| x sl] eqn:Hsl.
      * simpl.
        destruct (IH (S t) (mkState t (st_values st) (st_start_time st)
                                    (st_end_time st))) as [s' Hs']; [lia |].
        exists s'. exact Hs'.
      * cbn [length Nat.ltb Nat.leb total bind].
        match goal with
        | |- context [for_each body _ ?st1] =>
            destruct (IH (S t) st1) as [s' Hs']; [lia |]
        end.
        exists s'. rewrite Hs'. cbn [start_index st_values st_start_time
                                      st_end_time map value windowStart
                                      windowEnd].
        now rewrite <- !app_assoc.
    + simpl. apply IH. lia.
Qed.

(** With a positive window size the scan position 0 closes nothing. *)
Lemma first_position_open (st : loop_state) :
  0 < window_size -> start_index st = 0%nat -> body st 0%nat = Ok st.
Proof.
  intros Hw Hs. unfold body, chunck_body, at_time. rewrite Hs.
  destruct (Qle_bool window_size _) eqn:Hclose; [| reflexivity].
  apply Qle_bool_iff in Hclose. exfalso. lra.
Qed.

Lemma chunckData_chunk :
  0 < window_size ->
  chunckData time data window_size (total reduce)
  = Ok (frame_of (chunk time data window_size reduce)).
Proof.
  intros Hw. unfold chunckData, chunck_loop, chunk. rewrite range_0.
  destruct (length time) as [| n]; [reflexivity |].
  cbn [seq for_each].
  fold body. rewrite first_position_open by (exact Hw || reflexivity).
  cbn [bind].
  destruct (loop_scan n 1 (mkState 0 [] [] []) (le_n 1)) as [s' Hs'].
  rewrite Hs'. cbn [bind start_index st_values st_start_time st_end_time app].
  cbn [scan].
  destruct (Qle_bool window_size _) eqn:Hclose; [| reflexivity].
  apply Qle_bool_iff in Hclose. exfalso. lra.
Qed.

End LoopScan.

Lemma rows_frame_of {V} (rs : list (MetricRecord V)) : rows (frame_of rs) = rs.
Proof.
  unfold rows, frame_of. simpl.
  induction rs as [| [s e v] rs IH]; simpl; [reflexivity | now rewrite IH].
Qed.

(** ** Sorted timestamps *)

Lemma nondecreasing_tail (x : Q) (l : list Q) :
  nondecreasing (x :: l) = true -> nondecreasing l = true.
Proof.
  destruct l as [| y l]; [reflexivity |].
  simpl. rewrite andb_true_iff. tauto.
Qed.

Lemma nondecreasing_head (x : Q) (l : list Q) :
  nondecreasing (x :: l) = true ->
  forall j, (j < length l)%nat -> x <= nth j l 0.
Proof.
  revert x. induction l as [| y l IH]; intros x Hs j Hj; [simpl in Hj; lia |].
  assert (Hxy : x <= y).
  { simpl in Hs. apply andb_true_iff in Hs. now apply Qle_bool_iff. }
  destruct j as [| j]; [exact Hxy |].
  simpl. apply Qle_trans with y; [exact Hxy |].
  apply IH; [now apply nondecreasing_tail in Hs | simpl in Hj; lia].
Qed.

Lemma nondecreasing_nth (l : list Q) :
  nondecreasing l = true ->
  forall i j, (i <= j)%nat -> (j < length l)%nat -> nth i l 0 <= nth j l 0.
Proof.
  induction l as [| x l IH]; intros Hs i j Hij Hj; [simpl in Hj; lia |].
  destruct i as [| i].
  - destruct j as [| j]; [apply Qle_refl |].
    apply (nondecreasing_head x l Hs). simpl in Hj. lia.
  - destruct j as [| j]; [lia |].
    simpl. apply IH; [now apply nondecreasing_tail in Hs | lia |].
    simpl in Hj. lia.
Qed.

(** ** What [scan] emits *)

Section ScanFacts.
Context {V : Type}.
Variables (time data : list Q) (w : Q).
Variable reduce : list Q -> V.

Lemma closes_indices (s t : nat) (r : MetricRecord V) :
  closes time data w reduce s t r -> (s + 1 < t)%nat /\ (s < length data)%nat.
Proof.
  intros (_ & Hne & _). unfold positions in Hne.
  assert (Hlen : (0 < length (firstn (t - 1 - s) (skipn s data)))%nat).
  { destruct (firstn _ _); [congruence | simpl; lia]. }
  rewrite length_firstn, length_skipn in Hlen. lia.
Qed.

(** A record of [scan n t ws] closes a window opened at [ws] or at a scan
    position from [t] on, at one of the [n] positions scanned. *)
Lemma scan_closes (n : nat) : forall t ws,
  Forall (fun r => exists s t',
              (s = ws \/ t <= s)%nat /\ (t <= t' < t + n)%nat
              /\ closes time data w reduce s t' r)
         (scan time data w reduce n t ws).
Proof.
  induction n as [| n IH]; intros t ws; simpl; [constructor |].
  assert (Hnext : forall ws',
             (ws' = ws \/ ws' = t) ->
             Forall (fun r => exists s t',
                         (s = ws \/ t <= s)%nat
                         /\ (t <= t' < t + S n)%nat
                         /\ closes time data w reduce s t' r)
                    (scan time data w reduce n (S t) ws')).
  { intros ws' Hws'. eapply Forall_impl; [| apply IH].
    intros r (s & t' & Hs & Ht' & Hr). exists s, t'.
    split; [lia | split; [lia | exact Hr]]. }
  destruct (Qle_bool w _) eqn:Hclose; [| apply Hnext; now left].
  destruct (positions data ws (t - 1)) as [| x sl] eqn:Hsl;
    [apply Hnext; now right |].
  constructor; [| apply Hnext; now right].
  exists ws, t. split; [now left | split; [lia |]].
  unfold closes. rewrite Hsl.
  split; [now apply Qle_bool_iff | split; [discriminate | reflexivity]].
Qed.

Hypothesis Hsorted : nondecreasing time = true.
Hypothesis Hw : 0 < w.

(** Records come out in window order: a later record starts no earlier
    than an earlier one ends, and strictly after it starts. *)
Lemma scan_ordered (n : nat) : forall t ws,
  (ws <= t)%nat -> (t + n <= length time)%nat ->
  ForallOrdPairs
    (fun r1 r2 => windowEnd r1 <= windowStart r2
                  /\ windowStart r1 < windowStart r2)
    (scan time data w reduce n t ws).
Proof.
  induction n as [| n IH]; intros t ws Hws Hlen; simpl; [constructor |].
  destruct (Qle_bool w _) eqn:Hclose; [| apply IH; lia].
  destruct (positions data ws (t - 1)) as [| x sl] eqn:Hsl; [apply IH; lia |].
  constructor; [| apply IH; lia].
  apply Qle_bool_iff in Hclose.
  eapply Forall_impl; [| apply (scan_closes n (S t) t)].
  intros r (s & t' & Hs & Ht' & Hr).
  destruct (closes_indices _ _ _ Hr) as [Hst' _].
  destruct Hr as (_ & _ & ->). simpl.
  assert (Hmono : nth t time 0 <= nth s time 0)
    by (apply nondecreasing_nth; [exact Hsorted | lia | lia]).
  split; lra.
Qed.

End ScanFacts.

(** ** Samples that close no window *)

Section OpenWindow.
Context {V : Type}.
Variables (time data : list Q) (w : Q).
Variable operation : list Q -> result V.

Lemma body_start_index (st st' : loop_state) (t : nat) :
  chunck_body time data w operation st t = Ok st' ->
  start_index st' = start_index st \/ start_index st' = t.
Proof.
  unfold chunck_body.
  destruct (Qle_bool w _); [| intros [= <-]; now left].
  destruct (0 <? length _)%nat; [| intros [= <-]; now right].
  destruct (operation _); simpl; [intros [= <-]; now right | discriminate].
Qed.

(** A position whose elapsed time stays under the window size leaves the
    loop state as it is. *)
Lemma body_open (st : loop_state) (t : nat) :
  at_time time t - at_time time (start_index st) < w ->
  chunck_body time data w operation st t = Ok st.
Proof.
  intros Hlt. unfold chunck_body.
  destruct (Qle_bool w _) eqn:Hclose; [| reflexivity].
  apply Qle_bool_iff in Hclose. exfalso. lra.
Qed.

Lemma loop_open (n : nat) : forall (t : nat) (st : loop_state),
  (forall t', (t <= t' < t + n)%nat ->
              at_time time t' - at_time time (start_index st) < w) ->
  for_each (chunck_body time data w operation) (seq t n) st = Ok st.
Proof.
  induction n as [| n IH]; intros t st Hopen; simpl; [reflexivity |].
  rewrite body_open by (apply Hopen; lia). simpl.
  apply IH. intros t' Ht'. apply Hopen. lia.
Qed.

End OpenWindow.

Section Trailing.
Context {V : Type}.
Variables (time data : list Q) (w : Q).
Variable operation : list Q -> result V.
Variables (tail dtail : list Q).
Hypothesis Hw : 0 < w.
Hypothesis Hlen : length time = length data.

Lemma positions_app (s b : nat) :
  (b <= length data)%nat ->
  positions (data ++ dtail) s b = positions data s b.
Proof.
  intros Hb. unfold positions.
  rewrite skipn_app, firstn_app, length_skipn.
  replace (b - s - (length data - s))%nat with 0%nat by lia.
  now rewrite firstn_O, app_nil_r.
Qed.

Lemma body_app (st : loop_state) (t : nat) :
  (start_index st <= t)%nat -> (t < length time)%nat ->
  chunck_body (time ++ tail) (data ++ dtail) w operation st t
  = chunck_body time data w operation st t.
Proof.
  intros Hs Ht. unfold chunck_body, at_time.
  rewrite !app_nth1 by lia.
  destruct (Qle_bool w _) eqn:Hclose; [| reflexivity].
  destruct t as [| t].
  - replace (start_index st) with 0%nat in Hclose by lia.
    apply Qle_bool_iff in Hclose. exfalso. lra.
  - rewrite !slice_positions by lia. now rewrite positions_app by lia.
Qed.

Lemma loop_app (n : nat) : forall (t : nat) (st : loop_state),
  (start_index st <= t)%nat -> (t + n <= length time)%nat ->
  for_each (chunck_body (time ++ tail) (data ++ dtail) w operation) (seq t n) st
  = for_each (chunck_body time data w operation) (seq t n) st.
Proof.
  induction n as [| n IH]; intros t st Hs Ht; simpl; [reflexivity |].
  rewrite body_app by lia.
  destruct (chunck_body time data w operation st t) as [st' |] eqn:Hbody;
    simpl; [| reflexivity].
  apply IH; [| lia].
  destruct (body_start_index _ _ _ _ _ _ _ Hbody); lia.
Qed.

(** A trailing run that never reaches the threshold, measured from the
    start of the window left open, adds nothing to the output. *)
Lemma trailing_run_dropped (st : loop_state) :
  chunck_loop time data w operation = Ok st ->
  (forall x, In x tail -> x - at_time (time ++ tail) (start_index st) < w) ->
  chunckData (time ++ tail) (data ++ dtail) w operation
  = chunckData time data w operation.
Proof.
  intros Hst Htail. unfold chunckData, chunck_loop in *.
  rewrite range_0 in Hst. rewrite !range_0.
  rewrite length_app, seq_app, for_each_app.
  rewrite loop_app by (simpl; lia). rewrite Hst. cbn [bind].
  rewrite loop_open; [reflexivity |].
  intros t' Ht'. apply Htail.
  unfold at_time at 1. rewrite app_nth2 by lia. apply nth_In. lia.
Qed.

End Trailing.

Lemma last_as_nth (l : list Q) : last l 0 = nth (length l - 1) l 0.
Proof.
  induction l as [| x [| y l] IH]; try reflexivity.
  change (last (x :: y :: l) 0) with (last (y :: l) 0). rewrite IH.
  simpl. now rewrite Nat.sub_0_r.
Qed.

(** A series that is shorter than one window closes nothing. *)
Lemma short_series_open (time : list Q) (w : Q) :
  nondecreasing time = true ->
  last time 0 - hd 0 time < w ->
  forall t, (t < length time)%nat -> at_time time t - at_time time 0 < w.
Proof.
  intros Hs Hd t Ht. unfold at_time.
  assert (Hlast : nth t time 0 <= last time 0).
  { rewrite last_as_nth. apply nondecreasing_nth; [exact Hs | lia | lia]. }
  destruct time as [| x time]; [simpl in Ht; lia |].
  cbn [hd] in Hd. cbn [nth] in *. lra.
Qed.

(** ** [nn50] and [pnn50] *)

Lemma count_loop_bounds {X} (p : X -> bool) (xs : list X) : forall c : Z,
  (c <= fold_left (fun acc i => if p i then acc + 1 else acc) xs c
     <= c + Z.of_nat (length xs))%Z.
Proof.
  induction xs as [| x xs IH]; intros c; simpl; [lia |].
  destruct (p x).
  - specialize (IH (c + 1)%Z). lia.
  - specialize (IH c). lia.
Qed.

Lemma nn50_bounds (ibi : list Q) :
  (0 <= nn50 ibi <= Z.of_nat (length ibi - 1))%Z.
Proof.
  unfold nn50.
  pose proof (count_loop_bounds
                (fun i => Qlt_bool 0.05 (at_ibi ibi i - at_ibi ibi (i - 1)))
                (range 1 (length ibi)) 0%Z) as H.
  replace (length (range 1 (length ibi))) with (length ibi - 1)%nat in H
    by (unfold range; now rewrite length_seq).
  exact H.
Qed.

Lemma pnn50_nonempty (ibi : list Q) :
  ibi <> [] ->
  pnn50 ibi
  = Ok (inject_Z (nn50 ibi * 100) / inject_Z (Z.of_nat (length ibi))).
Proof.
  intros Hne. unfold pnn50, int_truediv.
  destruct (Z.eqb_spec (Z.of_nat (length ibi)) 0) as [H0 | _]; [| reflexivity].
  destruct ibi; [congruence | simpl in H0; lia].
Qed.

Lemma percentage_bounds (k n : Z) :
  (0 <= k < n)%Z ->
  0 <= inject_Z (k * 100) / inject_Z n
  /\ inject_Z (k * 100) / inject_Z n < 100.
Proof.
  intros Hk.
  assert (Hn : 0 < inject_Z n)
    by (change 0 with (inject_Z 0); rewrite <- Zlt_Qlt; lia).
  split.
  - apply Qle_shift_div_l; [exact Hn |].
    rewrite Qmult_0_l. change 0 with (inject_Z 0). rewrite <- Zle_Qle. lia.
  - apply Qlt_shift_div_r; [exact Hn |].
    change 100 with (inject_Z 100). rewrite <- inject_Z_mult, <- Zlt_Qlt. lia.
Qed.

(** ** [rmssd] *)

Lemma fold_left_Qsum {X} (f : X -> Q) (xs : list X) : forall a : Q,
  fold_left (fun sum i => sum + f i) xs a == a + Qsum (map f xs).
Proof.
  induction xs as [| x xs IH]; intros a; simpl; [lra |].
  rewrite IH. lra.
Qed.

Lemma rmssd_sum_spec (ibi : list Q) : rmssd_sum ibi == successive_sq_sum ibi.
Proof.
  unfold rmssd_sum, successive_sq_sum, range, at_ibi.
  rewrite (fold_left_Qsum
             (fun i => (nth i ibi 0 - nth (i - 1) ibi 0)
                       * (nth i ibi 0 - nth (i - 1) ibi 0))).
  lra.
Qed.

Lemma Qsum_nonneg {X} (f : X -> Q) (xs : list X) :
  (forall x, In x xs -> 0 <= f x) -> 0 <= Qsum (map f xs).
Proof.
  induction xs as [| x xs IH]; intros Hf; simpl; [lra |].
  assert (0 <= f x) by (apply Hf; now left).
  assert (0 <= Qsum (map f xs)) by (apply IH; intros y Hy; apply Hf; now right).
  lra.
Qed.

Lemma Qsum_zero {X} (f : X -> Q) (xs : list X) :
  (forall x, In x xs -> f x == 0) -> Qsum (map f xs) == 0.
Proof.
  induction xs as [| x xs IH]; intros Hf; simpl; [lra |].
  rewrite (Hf x) by now left.
  rewrite IH by (intros y Hy; apply Hf; now right). lra.
Qed.

Lemma Qsquare_nonneg (a : Q) : 0 <= a * a.
Proof. destruct (Qlt_le_dec a 0); nra. Qed.

Lemma successive_sq_sum_nonneg (x : list Q) : 0 <= successive_sq_sum x.
Proof.
  unfold successive_sq_sum. apply Qsum_nonneg.
  intros i _. apply Qsquare_nonneg.
Qed.

Lemma successive_sq_sum_constant (x : list Q) (c : Q) :
  Forall (fun y => y == c) x -> successive_sq_sum x == 0.
Proof.
  intros Hc. unfold successive_sq_sum. apply Qsum_zero.
  intros i Hi. apply in_seq in Hi. rewrite Forall_forall in Hc.
  assert (H1 : nth i x 0 == c) by (apply Hc, nth_In; lia).
  assert (H0 : nth (i - 1) x 0 == c) by (apply Hc, nth_In; lia).
  rewrite H1, H0. lra.
Qed.

Lemma Q2R_inject_Z (z : Z) : Q2R (inject_Z z) = IZR z.
Proof. unfold Q2R, inject_Z. simpl. Lra.lra. Qed.

Lemma rmssd_positive (ibi : list Q) :
  0 < successive_sq_sum ibi ->
  rmssd ibi = sqrt (Q2R (successive_sq_sum ibi) / (INR (length ibi) - 1)).
Proof.
  intros Hpos. unfold rmssd.
  assert (Hsum : 0 < rmssd_sum ibi) by (rewrite rmssd_sum_spec; exact Hpos).
  apply Qlt_bool_iff in Hsum. rewrite Hsum. f_equal.
  assert (Hn : (2 <= length ibi)%nat).
  { destruct ibi as [| a [| b ibi]]; simpl; try lia;
      vm_compute in Hpos; discriminate. }
  assert (Hden : ~ inject_Z (Z.of_nat (length ibi) - 1) == 0).
  { change 0 with (inject_Z 0). rewrite inject_Z_injective. lia. }
  rewrite Q2R_div by exact Hden.
  rewrite (Qeq_eqR _ _ (rmssd_sum_spec ibi)).
  rewrite Q2R_inject_Z, minus_IZR, <- INR_IZR_INZ. reflexivity.
Qed.

Lemma rmssd_zero (ibi : list Q) :
  successive_sq_sum ibi == 0 -> rmssd ibi = 0%R.
Proof.
  intros Hz. unfold rmssd.
  destruct (Qlt_bool 0 (rmssd_sum ibi)) eqn:Hsum; [| reflexivity].
  apply Qlt_bool_iff in Hsum. rewrite rmssd_sum_spec in Hsum. lra.
Qed.

(** ** [hrMaxMin] *)

(** A loop that reads [l[i]] for [i] in [range(0, len(l))] is a fold over
    the elements. *)
Lemma index_loop_elements {St} (f : St -> Q -> St) (l : list Q) :
  forall (pre : list Q) (st : St),
    fold_left (fun st i => f st (nth i (pre ++ l) 0))
              (seq (length pre) (length l)) st
    = fold_left f l st.
Proof.
  induction l as [| x l IH]; intros pre st; simpl; [reflexivity |].
  rewrite nth_middle.
  replace (pre ++ x :: l) with ((pre ++ [x]) ++ l) by now rewrite <- app_assoc.
  replace (S (length pre)) with (length (pre ++ [x]))
    by (rewrite length_app; simpl; lia).
  apply IH.
Qed.

Lemma fold_left_over_map {A B C} (f : A -> C -> A) (g : B -> C) (l : list B) :
  forall a, fold_left f (map g l) a = fold_left (fun a x => f a (g x)) l a.
Proof.
  induction l as [| x l IH]; intros a; simpl; [reflexivity | apply IH].
Qed.

Lemma fold_left_pointwise {A B} (f g : A -> B -> A) (l : list B) :
  (forall a x, f a x = g a x) ->
  forall a, fold_left f l a = fold_left g l a.
Proof.
  intros Hfg. induction l as [| x l IH]; intros a; simpl; [reflexivity |].
  rewrite Hfg. apply IH.
Qed.

Lemma hr_loop_split (hs : list Q) : forall hrmax hrmin : Q,
  fold_left (fun st hr => (raise_to (fst st) hr, lower_to (snd st) hr)) hs
            (hrmax, hrmin)
  = (fold_left raise_to hs hrmax, fold_left lower_to hs hrmin).
Proof.
  induction hs as [| h hs IH]; intros hrmax hrmin; simpl; [reflexivity |].
  apply IH.
Qed.

Lemma hrMaxMin_folds (ibi : list Q) :
  hrMaxMin ibi
  = fold_left raise_to (heart_rates ibi) 0
    - fold_left lower_to (heart_rates ibi) 1000.
Proof.
  unfold hrMaxMin. rewrite range_0.
  assert (Hloop : fold_left (hr_body ibi) (seq 0 (length ibi)) (0, 1000)
                  = fold_left (fun st hr => (raise_to (fst st) hr,
                                             lower_to (snd st) hr))
                              (heart_rates ibi) (0, 1000)).
  { unfold heart_rates. rewrite fold_left_over_map.
    rewrite <- (index_loop_elements
                  (fun st xi => (raise_to (fst st) (60 / xi),
                                 lower_to (snd st) (60 / xi))) ibi []).
    apply fold_left_pointwise. intros [hrmax hrmin] i. reflexivity. }
  rewrite Hloop, hr_loop_split. reflexivity.
Qed.

Lemma raise_loop (hs : list Q) : forall a : Q,
  let M := fold_left raise_to hs a in
  (M = a \/ In M hs) /\ a <= M /\ Forall (fun h => h <= M) hs.
Proof.
  induction hs as [| h hs IH]; intros a; simpl.
  - split; [now left | split; [lra | constructor]].
  - destruct (IH (raise_to a h)) as (Hin & Hle & Hall).
    assert (Hstep : a <= raise_to a h /\ h <= raise_to a h
                    /\ (raise_to a h = a \/ raise_to a h = h)).
    { unfold raise_to. destruct (Qlt_bool a h) eqn:E.
      - apply Qlt_bool_iff in E. repeat split; try lra. now right.
      - apply not_true_iff_false in E. rewrite Qlt_bool_iff in E.
        repeat split; try lra. now left. }
    destruct Hstep as (Ha & Hh & Hcase).
    split; [| split].
    + destruct Hin as [-> | Hin]; [| now right; right].
      destruct Hcase as [-> | ->]; [now left | now right; left].
    + lra.
    + constructor; [lra | exact Hall].
Qed.

Lemma lower_loop (hs : list Q) : forall b : Q,
  let m := fold_left lower_to hs b in
  (m = b \/ In m hs) /\ m <= b /\ Forall (fun h => m <= h) hs.
Proof.
  induction hs as [| h hs IH]; intros b; simpl.
  - split; [now left | split; [lra | constructor]].
  - destruct (IH (lower_to b h)) as (Hin & Hle & Hall).
    assert (Hstep : lower_to b h <= b /\ lower_to b h <= h
                    /\ (lower_to b h = b \/ lower_to b h = h)).
    { unfold lower_to. destruct (Qlt_bool h b) eqn:E.
      - apply Qlt_bool_iff in E. repeat split; try lra. now right.
      - apply not_true_iff_false in E. rewrite Qlt_bool_iff in E.
        repeat split; try lra. now left. }
    destruct Hstep as (Hb & Hh & Hcase).
    split; [| split].
    + destruct Hin as [-> | Hin]; [| now right; right].
      destruct Hcase as [-> | ->]; [now left | now right; left].
    + lra.
    + constructor; [lra | exact Hall].
Qed.

Lemma In_Exists_Qeq (l : list Q) (x : Q) : In x l -> Exists (fun h => h == x) l.
Proof.
  intros H. apply Exists_exists. exists x. split; [exact H | reflexivity].
Qed.

Lemma is_max_unique (l : list Q) (M M' : Q) :
  is_max l M -> is_max l M' -> M == M'.
Proof.
  intros [HE HF] [HE' HF'].
  apply Exists_exists in HE as (h & Hh & Ehm).
  apply Exists_exists in HE' as (h' & Hh' & Ehm').
  rewrite Forall_forall in HF, HF'.
  pose proof (HF h' Hh'). pose proof (HF' h Hh). lra.
Qed.

Lemma is_min_unique (l : list Q) (m m' : Q) :
  is_min l m -> is_min l m' -> m == m'.
Proof.
  intros [HE HF] [HE' HF'].
  apply Exists_exists in HE as (h & Hh & Ehm).
  apply Exists_exists in HE' as (h' & Hh' & Ehm').
  rewrite Forall_forall in HF, HF'.
  pose proof (HF h' Hh'). pose proof (HF' h Hh). lra.
Qed.

(** Whatever the intervals, the loop leaves in [hrmax] the maximum of the
    heart rates and its initial value 0, in [hrmin] the minimum of the heart
    rates and its initial value 1000. *)
Lemma raise_loop_is_max (hs : list Q) (a : Q) :
  is_max (a :: hs) (fold_left raise_to hs a).
Proof.
  destruct (raise_loop hs a) as (Hin & Hle & Hall). split.
  - destruct Hin as [-> | Hin].
    + left. reflexivity.
    + right. now apply In_Exists_Qeq.
  - constructor; assumption.
Qed.

Lemma lower_loop_is_min (hs : list Q) (b : Q) :
  is_min (b :: hs) (fold_left lower_to hs b).
Proof.
  destruct (lower_loop hs b) as (Hin & Hle & Hall). split.
  - destruct Hin as [-> | Hin].
    + left. reflexivity.
    + right. now apply In_Exists_Qeq.
  - constructor; assumption.
Qed.

Lemma heart_rate_positive (x : Q) : 0 < x -> 0 < 60 / x.
Proof. intros Hx. apply Qlt_shift_div_l; [exact Hx | lra]. Qed.

Lemma heart_rate_le_1000 (x : Q) : 0.06 <= x -> 60 / x <= 1000.
Proof. intros Hx. apply Qle_shift_div_r; lra. Qed.

Lemma heart_rate_gt_1000 (x : Q) : 0 < x -> x < 0.06 -> 1000 < 60 / x.
Proof. intros H0 Hx. apply Qlt_shift_div_l; lra. Qed.

Lemma hrMaxMin_max_min (ibi : list Q) :
  ibi <> [] ->
  Forall (fun x => 0 < x) ibi ->
  Exists (fun x => 0.06 <= x) ibi ->
  exists M m,
    is_max (heart_rates ibi) M /\ is_min (heart_rates ibi) m
    /\ hrMaxMin ibi == M - m.
Proof.
  intros Hne Hpos Hslow.
  exists (fold_left raise_to (heart_rates ibi) 0),
         (fold_left lower_to (heart_rates ibi) 1000).
  split; [| split; [| rewrite hrMaxMin_folds; reflexivity]].
  - destruct (raise_loop (heart_rates ibi) 0) as (Hin & _ & Hall).
    split; [| exact Hall].
    destruct Hin as [H0 | Hin]; [| now apply In_Exists_Qeq].
    destruct ibi as [| x ibi]; [congruence |]. exfalso.
    rewrite Forall_forall in Hall.
    assert (Hx : 60 / x <= fold_left raise_to (heart_rates (x :: ibi)) 0)
      by (apply Hall; now left).
    inversion Hpos as [| ? ? Hx0 _]; subst.
    apply heart_rate_positive in Hx0. rewrite H0 in Hx. lra.
  - destruct (lower_loop (heart_rates ibi) 1000) as (Hin & Hle & Hall).
    split; [| exact Hall].
    destruct Hin as [H1000 | Hin]; [| now apply In_Exists_Qeq].
    apply Exists_exists in Hslow as (x & Hx & Hx6).
    apply Exists_exists. exists (60 / x). split.
    + unfold heart_rates. now apply (in_map (fun xi => 60 / xi)).
    + rewrite Forall_forall in Hall.
      assert (Hlow : fold_left lower_to (heart_rates ibi) 1000 <= 60 / x).
      { apply Hall. unfold heart_rates.
        now apply (in_map (fun xi => 60 / xi)). }
      apply heart_rate_le_1000 in Hx6. rewrite H1000 in Hlow |- *. lra.
Qed.

(** ** Reordering a window *)

Lemma is_max_Permutation (l l' : list Q) (M : Q) :
  Permutation l l' -> is_max l M -> is_max l' M.
Proof.
  intros HP [HE HF]. split; now rewrite <- HP.
Qed.

Lemma is_min_Permutation (l l' : list Q) (m : Q) :
  Permutation l l' -> is_min l m -> is_min l' m.
Proof.
  intros HP [HE HF]. split; now rewrite <- HP.
Qed.

Lemma hrMaxMin_Permutation (l l' : list Q) :
  Permutation l l' -> hrMaxMin l == hrMaxMin l'.
Proof.
  intros HP. rewrite !hrMaxMin_folds.
  assert (HPh : Permutation (heart_rates l) (heart_rates l'))
    by now apply Permutation_map.
  assert (HM : fold_left raise_to (heart_rates l) 0
               == fold_left raise_to (heart_rates l') 0).
  { apply (is_max_unique (0 :: heart_rates l')).
    - apply (is_max_Permutation (0 :: heart_rates l)); [now constructor |].
      apply raise_loop_is_max.
    - apply raise_loop_is_max. }
  assert (Hm : fold_left lower_to (heart_rates l) 1000
               == fold_left lower_to (heart_rates l') 1000).
  { apply (is_min_unique (1000 :: heart_rates l')).
    - apply (is_min_Permutation (1000 :: heart_rates l)); [now constructor |].
      apply lower_loop_is_min.
    - apply lower_loop_is_min. }
  rewrite HM, Hm. reflexivity.
Qed.

Lemma rmssd_separates (l l' : list Q) :
  length l = length l' ->
  0 < successive_sq_sum l -> 0 < successive_sq_sum l' ->
  rmssd l = rmssd l' -> successive_sq_sum l == successive_sq_sum l'.
Proof.
  intros Hlen Hl Hl' Heq.
  rewrite (rmssd_positive l Hl), (rmssd_positive l' Hl'), Hlen in Heq.
  assert (Hn : (2 <= length l')%nat).
  { destruct l' as [| a [| b l']]; simpl; try lia;
      vm_compute in Hl'; discriminate. }
  assert (Hd : (0 < INR (length l') - 1)%R).
  { apply le_INR in Hn. simpl in Hn. Lra.lra. }
  apply Qlt_Rlt in Hl, Hl'. rewrite RMicromega.Q2R_0 in Hl, Hl'.
  apply sqrt_inj in Heq.
  - apply eqR_Qeq.
    apply (Rmult_eq_reg_r (/ (INR (length l') - 1))); [exact Heq |].
    apply Rinv_neq_0_compat. Lra.lra.
  - apply Rlt_le, Rdiv_lt_0_compat; assumption.
  - apply Rlt_le, Rdiv_lt_0_compat; assumption.
Qed.

(** ** The engine never raises on its own *)

Lemma loop_total {V} (time data : list Q) (w : Q)
      (operation : list Q -> result V) :
  (forall ibi, ibi <> [] -> exists v, operation ibi = Ok v) ->
  forall (ts : list nat) (st : loop_state),
  exists st', for_each (chunck_body time data w operation) ts st = Ok st'.
Proof.
  intros Hop ts. induction ts as [| t ts IH]; intros st; simpl.
  - now exists st.
  - unfold chunck_body at 1.
    destruct (Qle_bool w _); [| apply IH].
    destruct (slice data _ _) as [| x sl] eqn:Hsl; simpl; [apply IH |].
    destruct (Hop (x :: sl)) as [v Hv]; [discriminate |].
    rewrite Hv. simpl. apply IH.
Qed.

Lemma ForallOrdPairs_weaken {A} (P Q : A -> A -> Prop) (l : list A) :
  (forall a b, P a b -> Q a b) -> ForallOrdPairs P l -> ForallOrdPairs Q l.
Proof.
  intros HPQ. induction 1 as [| a l Ha _ IH]; constructor; [| exact IH].
  eapply Forall_impl; [| exact Ha]. intros b. apply HPQ.
Qed.

(** * The claims of the specification *)

(** C1. On a valid input (index-aligned timestamps and intervals,
    non-decreasing timestamps, positive intervals, positive window size)
    [chunckData] returns, without raising, the frame whose rows are the
    records of [chunk]: the scan of positions 0 to the end that, whenever
    [timestamps[t] - timestamps[windowStartIndex] >= windowSizeSeconds],
    takes the intervals at positions [[windowStartIndex, t-1)], emits
    [(timestamps[windowStartIndex], timestamps[t], reduce slice)] exactly when
    the slice is not empty, and moves [windowStartIndex] to [t] either way;
    nothing is emitted after the last close and the rows are in scan order.
    Only the positivity of the window size is used ([chunckData_chunk]). *)
Theorem chunckData_refines_chunk {V} (time data : list Q) (w : Q)
        (reduce : list Q -> V) :
  valid_input time data w = true ->
  chunckData time data w (total reduce)
  = Ok (frame_of (chunk time data w reduce)).
Proof.
  intros Hvalid. apply valid_input_spec in Hvalid as (_ & _ & _ & Hw).
  now apply chunckData_chunk.
Qed.

Lemma chunckData_refines_chunk_witness :
  valid_input [0; 30; 59; 60; 61; 119; 120; 121] [1; 1; 1; 1; 1; 1; 1; 1] 60
  = true
  /\ chunckData [0; 30; 59; 60; 61; 119; 120; 121] [1; 1; 1; 1; 1; 1; 1; 1] 60
                (total nn50)
     = Ok (frame_of (chunk [0; 30; 59; 60; 61; 119; 120; 121]
                           [1; 1; 1; 1; 1; 1; 1; 1] 60 nn50)).
Proof.
  split; [reflexivity |].
  apply (chunckData_refines_chunk
           [0; 30; 59; 60; 61; 119; 120; 121] [1; 1; 1; 1; 1; 1; 1; 1] 60 nn50).
  reflexivity.
Defined.

(** C5. On a valid input every record of [chunckData] spans at least the
    window size; the windows do not overlap (a later record starts no earlier
    than an earlier one ends); the window starts are strictly increasing and
    each is an input timestamp; every record reduces a slice of at least one
    sample; and the trailing run is not emitted: appending samples that never
    reach the threshold, measured from the window left open, leaves the
    output as it is. *)
Theorem chunckData_window_invariants {V} (time data : list Q) (w : Q)
        (reduce : list Q -> V) :
  valid_input time data w = true ->
  exists df st,
    chunckData time data w (total reduce) = Ok df
    /\ chunck_loop time data w (total reduce) = Ok st
    /\ Forall (fun r => w <= windowEnd r - windowStart r) (rows df)
    /\ ForallOrdPairs (fun r1 r2 => windowEnd r1 <= windowStart r2) (rows df)
    /\ ForallOrdPairs (fun r1 r2 => windowStart r1 < windowStart r2) (rows df)
    /\ Forall (fun r => In (windowStart r) time) (rows df)
    /\ Forall (fun r => exists s t,
                   windowStart r = nth s time 0
                   /\ windowEnd r = nth t time 0
                   /\ value r = reduce (positions data s (t - 1))
                   /\ (1 <= length (positions data s (t - 1)))%nat)
              (rows df)
    /\ (forall tail dtail,
           (forall x, In x tail ->
                      x - at_time (time ++ tail) (start_index st) < w) ->
           chunckData (time ++ tail) (data ++ dtail) w (total reduce) = Ok df).
Proof.
  intros Hvalid.
  apply valid_input_spec in Hvalid as (Hlen & Hsorted & _ & Hw).
  pose proof (chunckData_chunk time data w reduce Hw) as Hrun.
  destruct (chunck_loop time data w (total reduce)) as [st | e] eqn:Hloop;
    [| unfold chunckData in Hrun; rewrite Hloop in Hrun; discriminate].
  exists (frame_of (chunk time data w reduce)), st.
  rewrite rows_frame_of.
  pose proof (scan_closes time data w reduce (length time) 0 0) as Hrecords.
  pose proof (scan_ordered time data w reduce Hsorted Hw (length time) 0 0
                           (le_n 0) (le_n _)) as Hordered.
  fold (chunk time data w reduce) in Hrecords, Hordered.
  repeat split.
  - exact Hrun.
  - eapply Forall_impl; [| exact Hrecords].
    intros r (s & t & _ & _ & Hspan & _ & ->). exact Hspan.
  - eapply ForallOrdPairs_weaken; [| exact Hordered]. intros a b [H _]. exact H.
  - eapply ForallOrdPairs_weaken; [| exact Hordered]. intros a b [_ H]. exact H.
  - eapply Forall_impl; [| exact Hrecords].
    intros r (s & t & _ & Ht & Hr).
    destruct (closes_indices _ _ _ _ _ _ _ Hr) as [Hst _].
    destruct Hr as (_ & _ & ->). simpl. apply nth_In. lia.
  - eapply Forall_impl; [| exact Hrecords].
    intros r (s & t & _ & _ & _ & Hne & ->). exists s, t. simpl.
    repeat split.
    destruct (positions data s (t - 1)); [congruence | simpl; lia].
  - intros tail dtail Htail.
    rewrite (trailing_run_dropped time data w (total reduce) tail dtail
                                  Hw Hlen st Hloop Htail).
    exact Hrun.
Qed.

Lemma chunckData_window_invariants_witness :
  valid_input [0; 30; 59; 60; 61; 119; 120; 121] [1; 1; 1; 1; 1; 1; 1; 1] 60
  = true
  /\ exists df st,
      chunckData [0; 30; 59; 60; 61; 119; 120; 121] [1; 1; 1; 1; 1; 1; 1; 1]
                 60 (total nn50) = Ok df
      /\ chunck_loop [0; 30; 59; 60; 61; 119; 120; 121]
                     [1; 1; 1; 1; 1; 1; 1; 1] 60 (total nn50) = Ok st
      /\ Forall (fun r => 60 <= windowEnd r - windowStart r) (rows df).
Proof.
  split; [reflexivity |].
  destruct (chunckData_window_invariants
              [0; 30; 59; 60; 61; 119; 120; 121] [1; 1; 1; 1; 1; 1; 1; 1] 60
              nn50 eq_refl) as (df & st & Hrun & Hloop & Hspan & _).
  exists df, st. split; [exact Hrun | split; [exact Hloop | exact Hspan]].
Defined.

(** C6. A series with no sample, and a series of non-decreasing timestamps
    whose total duration (last timestamp minus first) is under the window
    size, give the empty frame, and no exception, whatever the reducer. *)
Theorem chunckData_short_series {V} (time data : list Q) (w : Q)
        (operation : list Q -> result V) :
  time = []
  \/ (nondecreasing time = true /\ last time 0 - hd 0 time < w) ->
  chunckData time data w operation = Ok (mkFrame [] [] []).
Proof.
  intros [-> | [Hsorted Hshort]]; [reflexivity |].
  unfold chunckData, chunck_loop. rewrite range_0.
  rewrite loop_open; [reflexivity |].
  intros t Ht. cbn [start_index].
  apply short_series_open; [exact Hsorted | exact Hshort | lia].
Qed.

Lemma chunckData_short_series_witness :
  chunckData [] [0.8; 0.9] 60 pnn50 = Ok (mkFrame [] [] [])
  /\ chunckData [0; 20; 40; 59] [0.8; 0.9; 0.8; 0.9] 60 pnn50
     = Ok (mkFrame [] [] []).
Proof.
  split.
  - apply (chunckData_short_series [] [0.8; 0.9] 60 pnn50). left. reflexivity.
  - apply (chunckData_short_series [0; 20; 40; 59] [0.8; 0.9; 0.8; 0.9] 60
                                   pnn50).
    right. split; reflexivity.
Defined.

(** C7. For a non-empty interval sequence [x_0 .. x_{n-1}], [rmssd] is
    [sqrt (sum_{i=1}^{n-1} (x_i - x_{i-1})^2 / (n - 1))] when the sum of
    squared successive differences is positive and 0 when that sum is 0 (it
    is never negative); it is 0 on a single sample and on a constant
    sequence. *)
Theorem rmssd_formula (ibi : list Q) :
  ibi <> [] ->
  (0 < successive_sq_sum ibi ->
   rmssd ibi
   = sqrt (Q2R (successive_sq_sum ibi) / (INR (length ibi) - 1)))
  /\ (successive_sq_sum ibi == 0 -> rmssd ibi = 0%R)
  /\ 0 <= successive_sq_sum ibi
  /\ (length ibi = 1%nat -> rmssd ibi = 0%R)
  /\ (forall c, Forall (fun x => x == c) ibi -> rmssd ibi = 0%R).
Proof.
  intros _. split; [apply rmssd_positive |].
  split; [apply rmssd_zero |].
  split; [apply successive_sq_sum_nonneg |].
  split.
  - intros H1. apply rmssd_zero. unfold successive_sq_sum. rewrite H1.
    reflexivity.
  - intros c Hc. apply rmssd_zero. now apply successive_sq_sum_constant with c.
Qed.

Lemma rmssd_formula_witness :
  rmssd [0.8; 0.9; 0.8]
  = sqrt (Q2R (successive_sq_sum [0.8; 0.9; 0.8])
          / (INR (length [0.8; 0.9; 0.8]) - 1))
  /\ rmssd [0.8; 0.8; 0.8] = 0%R.
Proof.
  split.
  - destruct (rmssd_formula [0.8; 0.9; 0.8]) as (Hpos & _); [discriminate |].
    apply Hpos. reflexivity.
  - destruct (rmssd_formula [0.8; 0.8; 0.8]) as (_ & Hzero & _);
      [discriminate |].
    apply Hzero. reflexivity.
Defined.

(** C10. For a non-empty interval sequence of length [n], [pnn50] returns a
    value [v], [0 <= v < 100]: [nn50] counts at most [n - 1] adjacent pairs
    and [v] is [nn50 * 100 / n]. *)
Theorem pnn50_range (ibi : list Q) :
  ibi <> [] ->
  exists v,
    pnn50 ibi = Ok v
    /\ 0 <= v /\ v < 100
    /\ (0 <= nn50 ibi <= Z.of_nat (length ibi) - 1)%Z
    /\ v == inject_Z (nn50 ibi) * 100 / inject_Z (Z.of_nat (length ibi)).
Proof.
  intros Hne. eexists. split; [now apply pnn50_nonempty |].
  pose proof (nn50_bounds ibi) as Hb.
  assert (Hn : (1 <= length ibi)%nat)
    by (destruct ibi; [congruence | simpl; lia]).
  destruct (percentage_bounds (nn50 ibi) (Z.of_nat (length ibi))) as [H0 H100];
    [lia |].
  split; [exact H0 | split; [exact H100 | split; [lia |]]].
  rewrite inject_Z_mult. reflexivity.
Qed.

Lemma pnn50_range_witness :
  exists v, pnn50 [0.8; 0.9; 0.8; 0.9] = Ok v /\ 0 <= v /\ v < 100.
Proof.
  destruct (pnn50_range [0.8; 0.9; 0.8; 0.9]) as (v & Hv & H0 & H100 & _);
    [discriminate |].
  exists v. split; [exact Hv | split; [exact H0 | exact H100]].
Defined.

(** C9. The five entry points are the windowing engine at the canonical
    window sizes with the matching reducers: 60 s for RMSSD and SDNN, 120 s
    for NN50, pNN50 and max-min heart rate. *)
Theorem entry_points_bind_canonical_windows (time data : list Q) :
  getRMSSD time data = chunckData time data 60 (total rmssd)
  /\ getSDNN time data = chunckData time data 60 (total sdnn)
  /\ getNN50 time data = chunckData time data 120 (total nn50)
  /\ getPNN50 time data = chunckData time data 120 pnn50
  /\ getHRMaxMin time data = chunckData time data 120 (total hrMaxMin).
Proof. repeat split. Qed.

(** ** What [nn50] counts *)

(** A loop that reads [l[i-1]] and [l[i]] for [i] in [range(1, len(l))] is a
    fold over the adjacent pairs. *)
Lemma pair_loop_elements {St} (f : St -> Q -> Q -> St) (l : list Q) :
  forall (a : Q) (pre : list Q) (st : St),
    fold_left (fun st i => f st (nth (i - 1) (pre ++ a :: l) 0)
                             (nth i (pre ++ a :: l) 0))
              (seq (S (length pre)) (length l)) st
    = fold_left (fun st p => f st (fst p) (snd p)) (adjacent_pairs (a :: l)) st.
Proof.
  induction l as [| b l IH]; intros a pre st; [reflexivity |].
  cbn [length seq fold_left adjacent_pairs fst snd].
  replace (S (length pre) - 1)%nat with (length pre) by lia.
  rewrite nth_middle.
  replace (pre ++ a :: b :: l) with ((pre ++ [a]) ++ b :: l)
    by now rewrite <- app_assoc.
  replace (S (length pre)) with (length (pre ++ [a]))
    by (rewrite length_app; simpl; lia).
  rewrite nth_middle. apply IH.
Qed.

Lemma count_loop_filter {X} (p : X -> bool) (xs : list X) : forall c : Z,
  fold_left (fun acc x => if p x then acc + 1 else acc)%Z xs c
  = (c + Z.of_nat (length (filter p xs)))%Z.
Proof.
  induction xs as [| x xs IH]; intros c; simpl; [lia |].
  rewrite IH. destruct (p x); simpl; lia.
Qed.

(** [nn50] counts the adjacent pairs whose second element exceeds the first
    by more than 0.05: a fall is never counted. *)
Lemma nn50_rising_pairs (ibi : list Q) : nn50 ibi = rising_pairs ibi.
Proof.
  unfold nn50, rising_pairs, range, at_ibi.
  destruct ibi as [| a l]; [reflexivity |].
  cbn [length]. rewrite Nat.sub_succ, Nat.sub_0_r.
  pose proof (pair_loop_elements
                (fun (acc : Z) x y =>
                   if Qlt_bool 0.05 (y - x) then (acc + 1)%Z else acc)
                l a [] 0%Z) as H.
  cbn [app length] in H. rewrite H.
  apply (count_loop_filter (fun p => Qlt_bool 0.05 (snd p - fst p))).
Qed.

(** C2. [nn50] is meant to count the adjacent pairs that differ by more than
    0.05 s.  On the alternating sequence 0.8, 0.9, 0.8, 0.9 each of the three
    adjacent pairs differs by 0.1, yet [nn50] returns 2: the comparison is on
    the signed difference [ibi[i] - ibi[i-1]], so the falling pair
    (0.9, 0.8) is not counted. *)
Theorem nn50_misses_falling_pairs :
  nn50 [0.8; 0.9; 0.8; 0.9] = 2%Z
  /\ differing_pairs [0.8; 0.9; 0.8; 0.9] = 3%Z
  /\ length (adjacent_pairs [0.8; 0.9; 0.8; 0.9]) = 3%nat
  /\ Forall (fun p => 0.05 < Qabs (snd p - fst p))
            (adjacent_pairs [0.8; 0.9; 0.8; 0.9]).
Proof.
  split; [rewrite nn50_rising_pairs; reflexivity |].
  split; [reflexivity |]. split; [reflexivity |].
  repeat constructor.
Qed.

(** C3, as stated, fails: no input is rejected.  Timestamps and intervals of
    different lengths, and a window size of 0, each give a frame with a
    record, and [rmssd] of the empty sequence is the silent default 0. *)
Lemma chunckData_accepts_malformed_input :
  length [0; 30; 60; 90] <> length [0.8; 0.9]
  /\ chunckData [0; 30; 60; 90] [0.8; 0.9] 60 (total nn50)
     = Ok (mkFrame [0] [60] [0%Z])
  /\ chunckData [0; 1; 2] [1; 1; 1] 0 (total nn50)
     = Ok (mkFrame [0] [0] [0%Z])
  /\ rmssd [] = 0%R.
Proof.
  split; [discriminate |]. split; [reflexivity |]. split; [reflexivity |].
  apply rmssd_zero. reflexivity.
Qed.

(** C3, amended.  [chunckData] validates nothing and raises nothing of its
    own: whatever the lengths of the two sequences and the sign of the window
    size, it returns a frame as soon as the reducer returns on every
    non-empty sequence.  Called on the empty sequence, [rmssd] and [nn50]
    return 0 and [hrMaxMin] returns -1000; [pnn50] raises, with
    [ZeroDivisionError]. *)
Theorem chunckData_never_rejects {V} (time data : list Q) (w : Q)
        (operation : list Q -> result V) :
  (forall ibi, ibi <> [] -> exists v, operation ibi = Ok v) ->
  (exists df, chunckData time data w operation = Ok df)
  /\ rmssd [] = 0%R
  /\ nn50 [] = 0%Z
  /\ hrMaxMin [] == - (1000)
  /\ pnn50 [] = Raise ZeroDivisionError.
Proof.
  intros Hop. split.
  - unfold chunckData, chunck_loop.
    destruct (loop_total time data w operation Hop
                         (range 0 (length time)) (mkState 0 [] [] []))
      as [st Hst].
    rewrite Hst. simpl. eauto.
  - split; [apply rmssd_zero; reflexivity |].
    split; [reflexivity |]. split; reflexivity.
Qed.

Lemma chunckData_never_rejects_witness :
  exists df,
    chunckData [0; 30; 60; 90] [0.8; 0.9] (- (5)) (total hrMaxMin) = Ok df.
Proof.
  apply (chunckData_never_rejects [0; 30; 60; 90] [0.8; 0.9] (- (5))
                                  (total hrMaxMin)).
  intros ibi _. exists (hrMaxMin ibi). reflexivity.
Defined.

(** C4, as stated, fails: the minimum starts at 1000 beats per minute, so a
    window whose intervals are all under 0.06 s is measured against 1000.
    The single interval 0.05 s has heart rate 1200, which is both the maximum
    and the minimum, and [hrMaxMin] returns 200. *)
Lemma hrMaxMin_fast_window :
  is_max (heart_rates [0.05]) 1200
  /\ is_min (heart_rates [0.05]) 1200
  /\ hrMaxMin [0.05] == 200
  /\ ~ hrMaxMin [0.05] == 1200 - 1200.
Proof.
  split; [split; [left; qeval | constructor; [qeval | constructor]] |].
  split; [split; [left; qeval | constructor; [qeval | constructor]] |].
  split; qeval.
Qed.

(** C4, amended.  For a non-empty sequence of positive intervals of which at
    least one is 0.06 s or more (a heart rate of at most 1000), [hrMaxMin]
    is the maximum of the heart rates [60 / x_i] minus their minimum; a
    single such sample gives 0, and the intervals 0.5, 1.0, 2.0 give 90. *)
Theorem hrMaxMin_formula (ibi : list Q) :
  ibi <> [] ->
  Forall (fun x => 0 < x) ibi ->
  Exists (fun x => 0.06 <= x) ibi ->
  (exists M m,
      is_max (heart_rates ibi) M /\ is_min (heart_rates ibi) m
      /\ hrMaxMin ibi == M - m)
  /\ (length ibi = 1%nat -> hrMaxMin ibi == 0)
  /\ hrMaxMin [0.5; 1; 2] == 90.
Proof.
  intros Hne Hpos Hslow.
  destruct (hrMaxMin_max_min ibi Hne Hpos Hslow) as (M & m & HM & Hm & Heq).
  split; [now exists M, m |]. split; [| reflexivity].
  intros H1. destruct ibi as [| x [| y ibi]]; try discriminate.
  rewrite Heq.
  assert (EM : M == 60 / x).
  { apply (is_max_unique [60 / x]); [exact HM |].
    split; [left; reflexivity | constructor; [lra | constructor]]. }
  assert (Em : m == 60 / x).
  { apply (is_min_unique [60 / x]); [exact Hm |].
    split; [left; reflexivity | constructor; [lra | constructor]]. }
  rewrite EM, Em. lra.
Qed.

Lemma hrMaxMin_formula_witness :
  exists M m,
    is_max (heart_rates [0.5; 1; 2]) M /\ is_min (heart_rates [0.5; 1; 2]) m
    /\ hrMaxMin [0.5; 1; 2] == M - m.
Proof.
  apply (hrMaxMin_formula [0.5; 1; 2]).
  - discriminate.
  - repeat (constructor; [reflexivity |]). constructor.
  - left. qeval.
Defined.




(** * Further properties of the code *)

(** ** What every returned frame satisfies *)

Section FrameInvariant.
Context {V : Type}.
Variables (time data : list Q) (w : Q).
Variable operation : list Q -> result V.

(** The columns of a loop state are those of a list of records, each
    spanning the window size and bounded by input timestamps. *)
Let framed (st : loop_state) : Prop :=
  (start_index st < length time)%nat
  /\ exists rs : list (MetricRecord V),
      st_start_time st = map windowStart rs
      /\ st_end_time st = map windowEnd rs
      /\ st_values st = map value rs
      /\ Forall (fun r => w <= windowEnd r - windowStart r
                         /\ In (windowStart r) time
                         /\ In (windowEnd r) time) rs.

Lemma body_framed (st st' : loop_state) (t : nat) :
  (t < length time)%nat -> framed st ->
  chunck_body time data w operation st t = Ok st' -> framed st'.
Proof.
  intros Ht [Hs (rs & Hss & Hes & Hvs & Hrs)]. unfold chunck_body.
  destruct (Qle_bool w _) eqn:Hclose;
    [| intros [= <-]; split; [exact Hs | now exists rs]].
  destruct (0 <? length _)%nat;
    [| intros [= <-]; split; [exact Ht | now exists rs]].
  destruct (operation _) as [v |]; simpl; [| discriminate].
  intros [= <-]. split; [exact Ht |].
  exists (rs ++ [mkRecord (at_time time (start_index st)) (at_time time t) v]).
  cbn [st_start_time st_end_time st_values].
  rewrite !map_app, Hss, Hes, Hvs. repeat split.
  apply Forall_app. split; [exact Hrs |].
  constructor; [| constructor]. cbn [windowStart windowEnd].
  split; [now apply Qle_bool_iff |].
  split; apply nth_In; lia.
Qed.

Lemma loop_framed (ts : list nat) : forall st st' : loop_state,
  Forall (fun t => (t < length time)%nat) ts -> framed st ->
  for_each (chunck_body time data w operation) ts st = Ok st' -> framed st'.
Proof.
  induction ts as [| t ts IH]; intros st st' Hts Hst; simpl.
  - now intros [= <-].
  - inversion Hts as [| ? ? Ht Hts']; subst.
    destruct (chunck_body time data w operation st t) as [st1 |] eqn:Hbody;
      simpl; [| discriminate].
    apply IH; [exact Hts' |]. exact (body_framed st st1 t Ht Hst Hbody).
Qed.

Lemma chunckData_framed (df : DataFrame V) :
  chunckData time data w operation = Ok df ->
  exists rs,
    df = frame_of rs
    /\ Forall (fun r => w <= windowEnd r - windowStart r
                       /\ In (windowStart r) time
                       /\ In (windowEnd r) time) rs.
Proof.
  unfold chunckData, chunck_loop. rewrite range_0.
  destruct (for_each _ _ _) as [st |] eqn:Hloop; simpl; [| discriminate].
  intros [= <-].
  destruct (Nat.eq_dec (length time) 0) as [Hempty | Hsome].
  - rewrite Hempty in Hloop. simpl in Hloop. injection Hloop as <-.
    exists []. split; [reflexivity | constructor].
  - assert (Hst : framed st).
    { apply (loop_framed (seq 0 (length time)) (mkState 0 [] [] [])).
      - apply Forall_forall. intros t Ht. apply in_seq in Ht. lia.
      - split; [simpl; lia |]. exists [].
        repeat split. constructor.
      - exact Hloop. }
    destruct Hst as [_ (rs & Hss & Hes & Hvs & Hrs)].
    exists rs. split; [| exact Hrs].
    unfold frame_of. now rewrite Hss, Hes, Hvs.
Qed.

End FrameInvariant.

(** ** The engine is a windowing followed by a traversal *)

Section Traversal.
Context {V : Type}.
Variables (time data : list Q) (w : Q).
Variable operation : list Q -> result V.

(** Run from the same start index and the same time columns, the loop with
    [operation] does on the windows what the loop with [window_itself]
    collects. *)
Lemma loop_traverses (ts : list nat) :
  forall (s : nat) (windows : list (list Q)) (ss es : list Q),
  exists s' new ss' es',
    for_each (chunck_body time data w (total window_itself)) ts
             (mkState s windows ss es)
    = Ok (mkState s' (windows ++ new) (ss ++ ss') (es ++ es'))
    /\ Forall (fun ibi => ibi <> []) new
    /\ forall vs : list V,
        for_each (chunck_body time data w operation) ts (mkState s vs ss es)
        = (vnew <- traverse operation new ;;
           Ok (mkState s' (vs ++ vnew) (ss ++ ss') (es ++ es'))).
Proof.
  induction ts as [| t ts IH]; intros s windows ss es.
  - exists s, [], [], []. cbn [for_each traverse bind].
    rewrite !app_nil_r. split; [reflexivity | split; [constructor |]].
    intros vs. now rewrite app_nil_r.
  - cbn [for_each]. unfold chunck_body at 1 3. cbn [start_index].
    destruct (Qle_bool w _) eqn:Hclose; [| cbn [bind]; apply IH].
    destruct (slice data (Z.of_nat s) (Z.of_nat t - 1)) as [| x sl] eqn:Hsl.
    + cbn [length Nat.ltb Nat.leb bind st_values st_start_time st_end_time].
      apply IH.
    + cbn [length Nat.ltb Nat.leb total bind st_values st_start_time
             st_end_time].
      destruct (IH t (windows ++ [window_itself (x :: sl)])
                   (ss ++ [at_time time s]) (es ++ [at_time time t]))
        as (s' & new & ss' & es' & Hrun & Hnew & Hop).
      exists s', ((x :: sl) :: new), (at_time time s :: ss'),
             (at_time time t :: es').
      split; [| split].
      * rewrite Hrun. unfold window_itself. now rewrite <- !app_assoc.
      * constructor; [discriminate | exact Hnew].
      * intros vs. cbn [traverse app].
        destruct (operation (x :: sl)) as [v | e]; cbn [bind]; [| reflexivity].
        rewrite Hop.
        destruct (traverse operation new) as [vnew | e]; cbn [bind];
          [| reflexivity].
        now rewrite <- !app_assoc.
Qed.

Lemma chunckData_traverse :
  exists windows : DataFrame (list Q),
    chunckData time data w (total window_itself) = Ok windows
    /\ Forall (fun ibi => ibi <> []) (values windows)
    /\ chunckData time data w operation
       = (vs <- traverse operation (values windows) ;;
          Ok (mkFrame (startTime windows) (endTime windows) vs)).
Proof.
  destruct (loop_traverses (range 0 (length time)) 0 [] [] [])
    as (s' & new & ss' & es' & Hrun & Hnew & Hop).
  exists (mkFrame ss' es' new). unfold chunckData, chunck_loop.
  rewrite Hrun, Hop. cbn [bind app st_values st_start_time st_end_time
                            values startTime endTime].
  split; [reflexivity | split; [exact Hnew |]].
  destruct (traverse operation new); reflexivity.
Qed.

End Traversal.

Lemma traverse_total {V} (f : list Q -> V) (xs : list (list Q)) :
  traverse (total f) xs = Ok (map f xs).
Proof.
  induction xs as [| x xs IH]; [reflexivity |].
  cbn [traverse map total bind]. now rewrite IH.
Qed.

Lemma traverse_agree {V} (f g : list Q -> result V) (xs : list (list Q)) :
  Forall (fun x => f x = g x) xs -> traverse f xs = traverse g xs.
Proof.
  induction 1 as [| x xs Hx _ IH]; [reflexivity |].
  cbn [traverse]. now rewrite Hx, IH.
Qed.

Lemma traverse_raises {V} (f : list Q -> result V) (xs : list (list Q)) :
  Exists (fun x => exists e, f x = Raise e) xs ->
  exists e, traverse f xs = Raise e.
Proof.
  induction 1 as [x xs [e He] | x xs _ [e IH]]; cbn [traverse].
  - exists e. now rewrite He.
  - destruct (f x) as [y | e']; cbn [bind]; [| now exists e'].
    exists e. now rewrite IH.
Qed.

Lemma slice_nil {A} (a b : Z) : slice (@nil A) a b = [].
Proof. unfold slice. now rewrite skipn_nil, firstn_nil. Qed.

Lemma loop_no_intervals {V} (time : list Q) (w : Q)
      (operation : list Q -> result V) (ts : list nat) :
  forall s : nat,
  exists s',
    for_each (chunck_body time [] w operation) ts (mkState s [] [] [])
    = Ok (mkState s' [] [] []).
Proof.
  induction ts as [| t ts IH]; intros s; cbn [for_each].
  - now exists s.
  - unfold chunck_body at 1. rewrite slice_nil.
    destruct (Qle_bool w _); cbn [length Nat.ltb Nat.leb bind]; apply IH.
Qed.

(** X1. Whatever the timestamps, the intervals, the window size and the
    reducer, a frame that [chunckData] returns has three columns of one
    length, every row spans at least the window size, and every start and
    end time is one of the input timestamps. *)
Theorem chunckData_frame_well_formed {V} (time data : list Q) (w : Q)
        (operation : list Q -> result V) (df : DataFrame V) :
  chunckData time data w operation = Ok df ->
  length (startTime df) = length (values df)
  /\ length (endTime df) = length (values df)
  /\ Forall (fun r => w <= windowEnd r - windowStart r
                      /\ In (windowStart r) time
                      /\ In (windowEnd r) time) (rows df).
Proof.
  intros Hrun.
  destruct (chunckData_framed time data w operation df Hrun) as (rs & -> & Hrs).
  rewrite rows_frame_of. unfold frame_of. cbn [startTime endTime values].
  rewrite !length_map. repeat split. exact Hrs.
Qed.

Lemma chunckData_frame_well_formed_witness :
  length (startTime (mkFrame [90] [90] [0%Z]))
  = length (values (mkFrame [90] [90] [0%Z]))
  /\ length (endTime (mkFrame [90] [90] [0%Z]))
     = length (values (mkFrame [90] [90] [0%Z]))
  /\ Forall (fun r => - (50) <= windowEnd r - windowStart r
                      /\ In (windowStart r) [90; 60; 30]
                      /\ In (windowEnd r) [90; 60; 30])
            (rows (mkFrame [90] [90] [0%Z])).
Proof.
  apply (chunckData_frame_well_formed [90; 60; 30] [1; 2] (- (50))
                                      (total nn50)).
  reflexivity.
Defined.

(** X2. The engine is a windowing followed by a traversal: the start and end
    columns and the windows do not depend on the reducer (they are what the
    run with the reducer [window_itself] returns), no window is empty, and
    the run with a reducer applies it to the windows in order, returning the
    frame of its results or the first exception it raises. *)
Theorem chunckData_windows_then_reducer {V} (time data : list Q) (w : Q)
        (operation : list Q -> result V) :
  exists windows : DataFrame (list Q),
    chunckData time data w (total window_itself) = Ok windows
    /\ Forall (fun ibi => ibi <> []) (values windows)
    /\ chunckData time data w operation
       = (vs <- traverse operation (values windows) ;;
          Ok (mkFrame (startTime windows) (endTime windows) vs)).
Proof. apply chunckData_traverse. Qed.

(** X3. The five entry points never raise, on any input.  [getRMSSD] and
    [getSDNN] return their values on the same 60 s windows, [getNN50],
    [getPNN50] and [getHRMaxMin] on the same 120 s windows, and the division
    of [pnn50] is never by zero: each of its values is [nn50 * 100 / n] of a
    window of [n >= 1] samples. *)
Theorem entry_points_share_windows (time data : list Q) :
  exists w60 w120 : DataFrame (list Q),
    chunckData time data 60 (total window_itself) = Ok w60
    /\ chunckData time data 120 (total window_itself) = Ok w120
    /\ getRMSSD time data
       = Ok (mkFrame (startTime w60) (endTime w60) (map rmssd (values w60)))
    /\ getSDNN time data
       = Ok (mkFrame (startTime w60) (endTime w60) (map sdnn (values w60)))
    /\ getNN50 time data
       = Ok (mkFrame (startTime w120) (endTime w120) (map nn50 (values w120)))
    /\ getHRMaxMin time data
       = Ok (mkFrame (startTime w120) (endTime w120)
                     (map hrMaxMin (values w120)))
    /\ getPNN50 time data
       = Ok (mkFrame (startTime w120) (endTime w120)
                     (map (fun ibi => inject_Z (nn50 ibi * 100)
                                      / inject_Z (Z.of_nat (length ibi)))
                          (values w120)))
    /\ Forall (fun ibi => (1 <= length ibi)%nat) (values w120).
Proof.
  destruct (chunckData_traverse time data 60 (total rmssd))
    as (w60 & H60 & _ & Hrmssd).
  destruct (chunckData_traverse time data 120 (total nn50))
    as (w120 & H120 & Hne & Hnn50).
  exists w60, w120.
  assert (Hpure : forall (V : Type) (f : list Q -> V) (wsz : Q) windows,
             chunckData time data wsz (total window_itself) = Ok windows ->
             chunckData time data wsz (total f)
             = Ok (mkFrame (startTime windows) (endTime windows)
                           (map f (values windows)))).
  { intros V f wsz windows Hrun.
    destruct (chunckData_traverse time data wsz (total f))
      as (windows' & Hrun' & _ & Hf).
    rewrite Hrun in Hrun'. injection Hrun' as <-.
    rewrite Hf, traverse_total. reflexivity. }
  split; [exact H60 | split; [exact H120 |]].
  unfold getRMSSD, getSDNN, getNN50, getHRMaxMin, getPNN50.
  rewrite !(Hpure _ _ _ _ H60), !(Hpure _ _ _ _ H120).
  repeat split.
  - destruct (chunckData_traverse time data 120 pnn50)
      as (windows' & Hrun' & _ & Hp).
    rewrite H120 in Hrun'. injection Hrun' as <-. rewrite Hp.
    rewrite (traverse_agree pnn50
               (total (fun ibi => inject_Z (nn50 ibi * 100)
                                  / inject_Z (Z.of_nat (length ibi))))).
    + now rewrite traverse_total.
    + eapply Forall_impl; [| exact Hne].
      intros ibi Hibi. now apply pnn50_nonempty.
  - eapply Forall_impl; [| exact Hne].
    intros [| x ibi] Hibi; [congruence | simpl; lia].
Qed.

(** X4. A reducer that raises on one of the windows makes [chunckData] raise:
    no partial frame is returned. *)
Theorem reducer_exception_aborts {V} (time data : list Q) (w : Q)
        (operation : list Q -> result V) (windows : DataFrame (list Q)) :
  chunckData time data w (total window_itself) = Ok windows ->
  Exists (fun ibi => exists e, operation ibi = Raise e) (values windows) ->
  exists e, chunckData time data w operation = Raise e.
Proof.
  intros Hrun Hraise.
  destruct (chunckData_traverse time data w operation)
    as (windows' & Hrun' & _ & Hop).
  rewrite Hrun in Hrun'. injection Hrun' as <-.
  destruct (traverse_raises operation (values windows) Hraise) as [e He].
  exists e. now rewrite Hop, He.
Qed.

Lemma reducer_exception_aborts_witness :
  exists e,
    chunckData [0; 30; 60; 90] [0.8; 0.9; 1; 0.7] 60
               (fun ibi => int_truediv (nn50 ibi) (nn50 ibi))
    = Raise e.
Proof.
  apply (reducer_exception_aborts
           [0; 30; 60; 90] [0.8; 0.9; 1; 0.7] 60
           (fun ibi => int_truediv (nn50 ibi) (nn50 ibi))
           (mkFrame [0] [60] [[0.8]])).
  - reflexivity.
  - left. exists ZeroDivisionError. reflexivity.
Defined.

(** X5. Without intervals there is no window: on an empty [data]
    [chunckData] returns the empty frame, whatever the timestamps, the window
    size and the reducer. *)
Theorem chunckData_no_intervals {V} (time : list Q) (w : Q)
        (operation : list Q -> result V) :
  chunckData time [] w operation = Ok (mkFrame [] [] []).
Proof.
  unfold chunckData, chunck_loop.
  destruct (loop_no_intervals time w operation (range 0 (length time)) 0)
    as [s' Hs'].
  now rewrite Hs'.
Qed.

(** ** A window size that is not positive *)

Lemma slice_all_but_last {A} (l : list A) : slice l 0 (-1) = removelast l.
Proof.
  unfold slice, slice_bound. cbn [Z.ltb Z.compare].
  rewrite Z.min_l by lia. cbn [Z.to_nat skipn].
  rewrite removelast_firstn_len. f_equal. lia.
Qed.

Section NonPositiveWindow.
Context {V : Type}.
Variables (time data : list Q) (w : Q).
Variable operation : list Q -> result V.
Hypothesis Hsorted : nondecreasing time = true.
Hypothesis Hw : w <= 0.

(** From position 1 on every position closes the window that the position
    before it opened, and that window holds no sample. *)
Lemma loop_zero_width (n : nat) : forall (t : nat) (st : loop_state),
  (1 <= t)%nat -> start_index st = (t - 1)%nat ->
  (t + n <= length time)%nat ->
  exists s',
    for_each (chunck_body time data w operation) (seq t n) st
    = Ok (mkState s' (st_values st) (st_start_time st) (st_end_time st)).
Proof.
  induction n as [| n IH]; intros t st Ht Hs Hlen; cbn [seq for_each].
  - exists (start_index st). now destruct st.
  - unfold chunck_body at 1. rewrite Hs.
    assert (Hclose : Qle_bool w (at_time time t - at_time time (t - 1)) = true).
    { apply Qle_bool_iff.
      assert (nth (t - 1) time 0 <= nth t time 0)
        by (apply nondecreasing_nth; [exact Hsorted | lia | lia]).
      unfold at_time. lra. }
    rewrite Hclose, slice_positions by exact Ht.
    unfold positions. rewrite Nat.sub_diag.
    cbn [firstn length Nat.ltb Nat.leb bind].
    destruct (IH (S t) (mkState t (st_values st) (st_start_time st)
                                (st_end_time st))) as [s' Hs'];
      [lia | simpl; lia | lia |].
    exists s'. exact Hs'.
Qed.

End NonPositiveWindow.

Lemma chunckData_zero_width {V} (time data : list Q) (w : Q)
      (operation : list Q -> result V) :
  nondecreasing time = true -> w <= 0 -> time <> [] ->
  chunckData time data w operation
  = match removelast data with
    | [] => Ok (mkFrame [] [] [])
    | ibi => v <- operation ibi ;; Ok (mkFrame [hd 0 time] [hd 0 time] [v])
    end.
Proof.
  intros Hsorted Hw Hne. unfold chunckData, chunck_loop. rewrite range_0.
  destruct time as [| x time']; [congruence |].
  set (time := x :: time') in *.
  change (length time) with (S (length time')).
  cbn [seq for_each]. unfold chunck_body at 1. cbn [start_index].
  assert (Hclose : Qle_bool w (at_time time 0 - at_time time 0) = true)
    by (apply Qle_bool_iff; lra).
  rewrite Hclose. change (Z.of_nat 0 - 1)%Z with (-1)%Z.
  change (Z.of_nat 0) with 0%Z. rewrite slice_all_but_last.
  change (at_time time 0) with x. change (hd 0 time) with x.
  assert (Hlen : (1 + length time' <= length time)%nat) by (simpl; lia).
  destruct (removelast data) as [| y ibi].
  - cbn [length Nat.ltb Nat.leb bind st_values st_start_time st_end_time].
    destruct (loop_zero_width time data w operation Hsorted Hw
                              (length time') 1 (mkState 0 [] [] []))
      as [s' Hs']; [lia | reflexivity | exact Hlen |].
    now rewrite Hs'.
  - cbn [length Nat.ltb Nat.leb].
    destruct (operation (y :: ibi)) as [v | e]; cbn [bind]; [| reflexivity].
    match goal with
    | |- context [for_each _ _ ?st1] =>
        destruct (loop_zero_width time data w operation Hsorted Hw
                                  (length time') 1 st1) as [s' Hs'];
          [lia | reflexivity | exact Hlen |]
    end.
    now rewrite Hs'.
Qed.

(** X6. With a window size that is zero or negative, on non-decreasing
    timestamps, every position closes a window.  Position 0 reads the slice
    [data[0:-1]], which Python takes up to the last element: when it is not
    empty the frame has the single record
    [(time[0], time[0], operation(data[:-1]))].  Every later window is
    empty, so nothing else is emitted. *)
Theorem chunckData_nonpositive_window {V} (time data : list Q) (w : Q)
        (operation : list Q -> result V) :
  nondecreasing time = true -> w <= 0 -> time <> [] ->
  chunckData time data w operation
  = match removelast data with
    | [] => Ok (mkFrame [] [] [])
    | ibi => v <- operation ibi ;; Ok (mkFrame [hd 0 time] [hd 0 time] [v])
    end.
Proof. apply chunckData_zero_width. Qed.

Lemma chunckData_nonpositive_window_witness :
  chunckData [0; 30; 60; 90] [0.8; 0.9; 1; 0.7] 0 (total window_itself)
  = Ok (mkFrame [0] [0] [[0.8; 0.9; 1]]).
Proof.
  apply (chunckData_nonpositive_window [0; 30; 60; 90] [0.8; 0.9; 1; 0.7] 0
                                       (total window_itself)).
  - reflexivity.
  - qeval.
  - discriminate.
Defined.

(** ** Samples the windows leave out *)

Lemma positions_length (data : list Q) (a b : nat) :
  (length (positions data a b) <= b - a)%nat.
Proof. unfold positions. rewrite length_firstn. lia. Qed.

Lemma scan_samples (time data : list Q) (w : Q) (n : nat) : forall t ws,
  (ws <= t)%nat ->
  (samples_held (map value (scan time data w window_itself n t ws))
   + length (scan time data w window_itself n t ws)
   <= t + n - 1 - ws)%nat.
Proof.
  unfold samples_held.
  induction n as [| n IH]; intros t ws Hws; cbn [scan]; [simpl; lia |].
  destruct (Qle_bool w _).
  - pose proof (positions_length data ws (t - 1)) as Hlen.
    specialize (IH (S t) t (Nat.le_succ_diag_r t)).
    destruct (positions data ws (t - 1)) as [| x sl].
    + lia.
    + cbn [map value concat length] in *. unfold window_itself at 1.
      rewrite length_app. cbn [length] in *. lia.
  - specialize (IH (S t) ws). lia.
Qed.

(** X7. With a positive window size every emitted window loses a sample:
    the windows together hold at most [len(time) - 1 - k] samples, [k] the
    number of records. *)
Theorem windows_lose_samples (time data : list Q) (w : Q)
        (windows : DataFrame (list Q)) :
  0 < w ->
  chunckData time data w (total window_itself) = Ok windows ->
  (samples_held (values windows) + length (values windows)
   <= length time - 1)%nat.
Proof.
  intros Hw Hrun. rewrite chunckData_chunk in Hrun by exact Hw.
  injection Hrun as <-. unfold frame_of, chunk. cbn [values].
  pose proof (scan_samples time data w (length time) 0 0 (le_n 0)) as H.
  rewrite length_map. lia.
Qed.

Lemma windows_lose_samples_witness :
  (samples_held (values (mkFrame [0; 120] [60; 181] [[0.8; 0.9]; [0.6]])%Q)
   + length (values (mkFrame [0; 120] [60; 181] [[0.8; 0.9]; [0.6]])%Q)
   <= length ([0; 30; 59; 60; 120; 150; 181]%Q) - 1)%nat.
Proof.
  apply (windows_lose_samples [0; 30; 59; 60; 120; 150; 181]
                              [0.8; 0.9; 1; 0.7; 0.6; 0.5; 0.4] 60).
  - reflexivity.
  - reflexivity.
Defined.

(** ** How many windows fit *)

Lemma windows_fit {V} (w hi : Q) (rs : list (MetricRecord V)) : forall lo : Q,
  lo <= hi ->
  Forall (fun r => w <= windowEnd r - windowStart r
                   /\ lo <= windowStart r /\ windowEnd r <= hi) rs ->
  ForallOrdPairs (fun r1 r2 => windowEnd r1 <= windowStart r2) rs ->
  inject_Z (Z.of_nat (length rs)) * w <= hi - lo.
Proof.
  induction rs as [| r rs IH]; intros lo Hlo Hrs Hord.
  - cbn [length Z.of_nat]. change (inject_Z 0) with 0. lra.
  - inversion Hrs as [| ? ? (Hspan & Hstart & Hend) Hrs']; subst.
    inversion Hord as [| ? ? Hafter Hord']; subst.
    assert (Hrest : inject_Z (Z.of_nat (length rs)) * w <= hi - windowEnd r).
    { apply IH; [exact Hend | | exact Hord'].
      rewrite Forall_forall in *. intros r' Hr'.
      destruct (Hrs' r' Hr') as (Hs' & _ & He').
      specialize (Hafter r' Hr'). repeat split; assumption. }
    cbn [length]. rewrite Nat2Z.inj_succ. unfold Z.succ.
    rewrite inject_Z_plus. change (inject_Z 1) with 1. lra.
Qed.

(** X8. On a valid input the number of records times the window size is at
    most the duration of the series, last timestamp minus first. *)
Theorem window_count_bound {V} (time data : list Q) (w : Q)
        (reduce : list Q -> V) (df : DataFrame V) :
  valid_input time data w = true ->
  chunckData time data w (total reduce) = Ok df ->
  inject_Z (Z.of_nat (length (rows df))) * w <= last time 0 - hd 0 time.
Proof.
  intros Hvalid Hrun.
  apply valid_input_spec in Hvalid as (_ & Hsorted & _ & Hw).
  rewrite chunckData_chunk in Hrun by exact Hw. injection Hrun as <-.
  rewrite rows_frame_of. unfold chunk.
  pose proof (scan_closes time data w reduce (length time) 0 0) as Hrecords.
  pose proof (scan_ordered time data w reduce Hsorted Hw (length time) 0 0
                           (le_n 0) (le_n _)) as Hordered.
  assert (Hhd : hd 0 time = nth 0 time 0) by (destruct time; reflexivity).
  apply windows_fit.
  - rewrite Hhd, last_as_nth.
    destruct time as [| x time']; [simpl; lra |].
    apply nondecreasing_nth; [exact Hsorted | lia | simpl; lia].
  - eapply Forall_impl; [| exact Hrecords].
    intros r (s & t & _ & Ht & Hr).
    destruct (closes_indices _ _ _ _ _ _ _ Hr) as [Hst _].
    destruct Hr as (Hspan & _ & ->). cbn [windowStart windowEnd].
    split; [exact Hspan |]. rewrite Hhd, last_as_nth.
    split; apply nondecreasing_nth; try exact Hsorted; lia.
  - eapply ForallOrdPairs_weaken; [| exact Hordered]. intros a b [H _]. exact H.
Qed.

Lemma window_count_bound_witness :
  inject_Z (Z.of_nat (length (rows (mkFrame [0; 120] [60; 181] [1%Z; 0%Z]))))
  * 60
  <= last [0; 30; 59; 60; 120; 150; 181] 0
     - hd 0 [0; 30; 59; 60; 120; 150; 181].
Proof.
  apply (window_count_bound [0; 30; 59; 60; 120; 150; 181]
                            [0.8; 0.9; 1; 0.7; 0.6; 0.5; 0.4] 60 nn50).
  - reflexivity.
  - reflexivity.
Defined.

(** ** Appending samples *)

(** X9. Records once emitted stay: for a positive window size and aligned
    sequences, the rows of a series extended by further samples begin with
    the rows of the series itself. *)
Theorem chunckData_prefix_stable {V} (time data tail dtail : list Q) (w : Q)
        (reduce : list Q -> V) :
  0 < w -> length time = length data ->
  exists df df' more,
    chunckData time data w (total reduce) = Ok df
    /\ chunckData (time ++ tail) (data ++ dtail) w (total reduce) = Ok df'
    /\ rows df' = rows df ++ more.
Proof.
  intros Hw Hlen.
  pose proof (chunckData_chunk time data w reduce Hw) as Hrun.
  exists (frame_of (chunk time data w reduce)).
  destruct (Nat.eq_dec (length time) 0) as [Hempty | Hsome].
  - exists (frame_of (chunk (time ++ tail) (data ++ dtail) w reduce)),
           (chunk (time ++ tail) (data ++ dtail) w reduce).
    split; [exact Hrun | split; [now apply chunckData_chunk |]].
    rewrite !rows_frame_of. unfold chunk at 2. now rewrite Hempty.
  - unfold chunckData in Hrun.
    destruct (chunck_loop time data w (total reduce)) as [st | e] eqn:Hloop;
      [| discriminate].
    cbn [bind] in Hrun. injection Hrun as Hss Hes Hvs.
    destruct (loop_scan (time ++ tail) (data ++ dtail) w reduce
                        (length tail) (length time) st) as [s' Hs']; [lia |].
    exists (frame_of
              (chunk time data w reduce
               ++ scan (time ++ tail) (data ++ dtail) w reduce (length tail)
                       (length time) (start_index st))),
           (scan (time ++ tail) (data ++ dtail) w reduce (length tail)
                 (length time) (start_index st)).
    split; [| split].
    + unfold chunckData. rewrite Hloop. cbn [bind]. unfold frame_of.
      now rewrite Hss, Hes, Hvs.
    + unfold chunckData, chunck_loop. rewrite range_0, length_app, seq_app.
      rewrite for_each_app.
      rewrite (loop_app time data w (total reduce) tail dtail Hw Hlen)
        by (simpl; lia).
      unfold chunck_loop in Hloop. rewrite range_0 in Hloop.
      rewrite Hloop. cbn [bind Nat.add]. rewrite Hs'. cbn [bind].
      unfold frame_of. rewrite Hss, Hes, Hvs, !map_app. reflexivity.
    + now rewrite !rows_frame_of.
Qed.

Lemma chunckData_prefix_stable_witness :
  exists df df' more,
    chunckData [0; 30; 59; 60] [0.8; 0.9; 1; 0.7] 60 (total nn50) = Ok df
    /\ chunckData ([0; 30; 59; 60] ++ [120; 150; 181])
                  ([0.8; 0.9; 1; 0.7] ++ [0.6; 0.5; 0.4]) 60 (total nn50)
       = Ok df'
    /\ rows df' = rows df ++ more.
Proof.
  apply (chunckData_prefix_stable [0; 30; 59; 60] [0.8; 0.9; 1; 0.7]
                                  [120; 150; 181] [0.6; 0.5; 0.4] 60 nn50).
  - reflexivity.
  - reflexivity.
Defined.

(** ** Adjacent pairs *)

Lemma Qlt_bool_comp (a a' b b' : Q) :
  a == a' -> b == b' -> Qlt_bool a b = Qlt_bool a' b'.
Proof.
  intros Ha Hb.
  destruct (Qlt_bool a b) eqn:E, (Qlt_bool a' b') eqn:E'; try reflexivity.
  - apply Qlt_bool_iff in E. apply not_true_iff_false in E'.
    rewrite Qlt_bool_iff in E'. exfalso. apply E'. lra.
  - apply Qlt_bool_iff in E'. apply not_true_iff_false in E.
    rewrite Qlt_bool_iff in E. exfalso. apply E. lra.
Qed.

Lemma adjacent_pairs_snoc (l : list Q) (x y : Q) :
  adjacent_pairs (l ++ [x; y]) = adjacent_pairs (l ++ [x]) ++ [(x, y)].
Proof.
  induction l as [| a [| b l] IH]; try reflexivity.
  change (adjacent_pairs ((a :: b :: l) ++ [x; y]))
    with ((a, b) :: adjacent_pairs ((b :: l) ++ [x; y])).
  rewrite IH. reflexivity.
Qed.

Lemma adjacent_pairs_rev (l : list Q) :
  adjacent_pairs (rev l)
  = rev (map (fun p => (snd p, fst p)) (adjacent_pairs l)).
Proof.
  induction l as [| a [| b l] IH]; try reflexivity.
  change (rev (a :: b :: l)) with ((rev l ++ [b]) ++ [a]).
  rewrite <- app_assoc. cbn [app]. rewrite adjacent_pairs_snoc.
  change (rev l ++ [b]) with (rev (b :: l)). rewrite IH.
  reflexivity.
Qed.

Lemma count_rev_map {X Y} (p : Y -> bool) (g : X -> Y) (l : list X) :
  length (filter p (rev (map g l))) = length (filter (fun x => p (g x)) l).
Proof.
  induction l as [| a l IH]; [reflexivity |].
  cbn [map rev filter]. rewrite filter_app, length_app, IH.
  cbn [filter]. destruct (p (g a)); simpl; lia.
Qed.

Lemma count_pointwise {X} (p q : X -> bool) (l : list X) :
  (forall x, p x = q x) -> length (filter p l) = length (filter q l).
Proof.
  intros Hpq. induction l as [| a l IH]; [reflexivity |].
  cbn [filter]. rewrite Hpq. destruct (q a); simpl; now rewrite IH.
Qed.

Lemma count_split {X} (p q r : X -> bool) (l : list X) :
  (forall x, p x = q x || r x) -> (forall x, q x && r x = false) ->
  length (filter p l) = (length (filter q l) + length (filter r l))%nat.
Proof.
  intros Hp Hqr. induction l as [| a l IH]; [reflexivity |].
  cbn [filter]. rewrite Hp. specialize (Hqr a).
  destruct (q a), (r a); simpl in *; try discriminate; lia.
Qed.

Lemma count_zero {X} (p : X -> bool) (l : list X) :
  length (filter p l) = 0%nat <-> Forall (fun x => p x = false) l.
Proof.
  induction l as [| a l IH]; cbn [filter].
  - split; [constructor | reflexivity].
  - destruct (p a) eqn:E; simpl; split.
    + discriminate.
    + intros H. inversion H; congruence.
    + intros H. constructor; [exact E | now apply IH].
    + intros H. inversion H. now apply IH.
Qed.

Lemma nn50_rev_falling (ibi : list Q) : nn50 (rev ibi) = falling_pairs ibi.
Proof.
  rewrite nn50_rising_pairs. unfold rising_pairs, falling_pairs.
  rewrite adjacent_pairs_rev, count_rev_map. reflexivity.
Qed.

Lemma differs_rises_or_falls (x y : Q) :
  Qlt_bool 0.05 (Qabs (y - x))
  = Qlt_bool 0.05 (y - x) || Qlt_bool 0.05 (x - y).
Proof.
  destruct (Qlt_le_dec (y - x) 0) as [Hneg | Hpos].
  - rewrite (Qlt_bool_comp 0.05 0.05 (Qabs (y - x)) (x - y));
      [| reflexivity | rewrite Qabs_neg; lra].
    destruct (Qlt_bool 0.05 (y - x)) eqn:E; [| reflexivity].
    apply Qlt_bool_iff in E. exfalso. lra.
  - rewrite (Qlt_bool_comp 0.05 0.05 (Qabs (y - x)) (y - x));
      [| reflexivity | now apply Qabs_pos].
    destruct (Qlt_bool 0.05 (x - y)) eqn:E; [| now rewrite orb_false_r].
    apply Qlt_bool_iff in E. exfalso. lra.
Qed.

Lemma rise_excludes_fall (x y : Q) :
  Qlt_bool 0.05 (y - x) && Qlt_bool 0.05 (x - y) = false.
Proof.
  destruct (Qlt_bool 0.05 (y - x)) eqn:E1, (Qlt_bool 0.05 (x - y)) eqn:E2;
    try reflexivity.
  apply Qlt_bool_iff in E1, E2. exfalso. lra.
Qed.

(** X10. [nn50] is the number of adjacent pairs whose second element exceeds
    the first by more than 0.05: rises only. *)
Theorem nn50_counts_rising_pairs (ibi : list Q) : nn50 ibi = rising_pairs ibi.
Proof. apply nn50_rising_pairs. Qed.

(** X11. The falls that [nn50] leaves out are the rises of the reversed
    sequence: [nn50] of a sequence plus [nn50] of its reversal is the number
    of adjacent pairs that differ by more than 0.05 either way. *)
Theorem nn50_with_reversal (ibi : list Q) :
  (nn50 ibi + nn50 (rev ibi))%Z = differing_pairs ibi
  /\ nn50 (rev ibi) = falling_pairs ibi.
Proof.
  split; [| apply nn50_rev_falling].
  rewrite nn50_rev_falling, nn50_rising_pairs.
  unfold rising_pairs, falling_pairs, differing_pairs.
  rewrite <- Nat2Z.inj_add. f_equal. symmetry. apply count_split.
  - intros [x y]. apply differs_rises_or_falls.
  - intros [x y]. apply rise_excludes_fall.
Qed.

(** X12. [nn50] is 0 exactly when no adjacent pair rises by more than 0.05,
    as in every non-increasing sequence; [pnn50] of such a non-empty
    sequence is 0. *)
Theorem nn50_zero_iff (ibi : list Q) :
  ibi <> [] ->
  (nn50 ibi = 0%Z
   <-> Forall (fun p => snd p - fst p <= 0.05) (adjacent_pairs ibi))
  /\ (nn50 ibi = 0%Z -> exists v, pnn50 ibi = Ok v /\ v == 0).
Proof.
  intros Hne. split.
  - rewrite nn50_rising_pairs. unfold rising_pairs.
    rewrite <- Nat2Z.inj_0, Nat2Z.inj_iff, count_zero.
    split; intros H; (eapply Forall_impl; [| exact H]); intros [x y];
      cbn [fst snd].
    + intros E. apply not_true_iff_false in E. rewrite Qlt_bool_iff in E.
      destruct (Qlt_le_dec 0.05 (y - x)); [contradiction | assumption].
    + intros Hle. apply not_true_iff_false. rewrite Qlt_bool_iff. lra.
  - intros H0. eexists. split; [now apply pnn50_nonempty |].
    rewrite H0. unfold Qdiv. change (inject_Z (0 * 100)) with 0. lra.
Qed.

Lemma nn50_zero_iff_witness :
  nn50 [1; 0.9; 0.8] = 0%Z
  /\ exists v, pnn50 [1; 0.9; 0.8] = Ok v /\ v == 0.
Proof.
  destruct (nn50_zero_iff [1; 0.9; 0.8]) as [Hiff Hp]; [discriminate |].
  assert (H0 : nn50 [1; 0.9; 0.8] = 0%Z).
  { apply Hiff. repeat (constructor; [qeval |]). constructor. }
  split; [exact H0 | exact (Hp H0)].
Defined.

(** ** [rmssd] on adjacent pairs *)

Lemma Qsum_zero_terms {X} (f : X -> Q) (l : list X) :
  (forall x, 0 <= f x) -> Qsum (map f l) == 0 -> Forall (fun x => f x == 0) l.
Proof.
  intros Hf. induction l as [| x l IH]; simpl; intros Hsum; [constructor |].
  pose proof (Hf x).
  assert (0 <= Qsum (map f l)) by (apply Qsum_nonneg; intros; apply Hf).
  constructor; [lra | apply IH; lra].
Qed.

Lemma rmssd_sum_pairs (ibi : list Q) :
  rmssd_sum ibi
  == Qsum (map (fun p => (snd p - fst p) * (snd p - fst p))
               (adjacent_pairs ibi)).
Proof.
  unfold rmssd_sum, range, at_ibi.
  destruct ibi as [| a l]; [reflexivity |].
  cbn [length]. rewrite Nat.sub_succ, Nat.sub_0_r.
  pose proof (pair_loop_elements
                (fun (sum : Q) x y => sum + (y - x) * (y - x)) l a [] 0) as H.
  cbn [app length] in H. rewrite H.
  rewrite (fold_left_Qsum (fun p => (snd p - fst p) * (snd p - fst p))).
  lra.
Qed.

Lemma rmssd_sum_nonneg (ibi : list Q) : 0 <= rmssd_sum ibi.
Proof. rewrite rmssd_sum_spec. apply successive_sq_sum_nonneg. Qed.

Lemma rmssd_nonneg (ibi : list Q) : (0 <= rmssd ibi)%R.
Proof.
  unfold rmssd. destruct (Qlt_bool 0 _); [apply sqrt_pos | Lra.lra].
Qed.

Lemma rmssd_positive_sum (ibi : list Q) :
  0 < rmssd_sum ibi -> (0 < rmssd ibi)%R.
Proof.
  intros Hpos.
  assert (Hssd : 0 < successive_sq_sum ibi)
    by (rewrite <- rmssd_sum_spec; exact Hpos).
  rewrite (rmssd_positive ibi Hssd).
  assert (Hn : (2 <= length ibi)%nat).
  { destruct ibi as [| a [| b ibi]]; simpl; try lia;
      vm_compute in Hssd; discriminate. }
  apply sqrt_lt_R0, Rdiv_lt_0_compat.
  - apply Qlt_Rlt in Hssd. now rewrite RMicromega.Q2R_0 in Hssd.
  - apply le_INR in Hn. simpl in Hn. Lra.lra.
Qed.

(** X13. [rmssd] is never negative, and it is 0 exactly when every two
    adjacent intervals are equal. *)
Theorem rmssd_zero_iff (ibi : list Q) :
  (0 <= rmssd ibi)%R
  /\ (rmssd ibi = 0%R
      <-> Forall (fun p => fst p == snd p) (adjacent_pairs ibi)).
Proof.
  split; [apply rmssd_nonneg |]. split.
  - intros Hzero.
    destruct (Qlt_le_dec 0 (rmssd_sum ibi)) as [Hpos | Hle].
    + apply rmssd_positive_sum in Hpos. exfalso. Lra.lra.
    + pose proof (rmssd_sum_nonneg ibi) as H0.
      assert (Hsum : Qsum (map (fun p => (snd p - fst p) * (snd p - fst p))
                               (adjacent_pairs ibi)) == 0)
        by (rewrite <- rmssd_sum_pairs; lra).
      apply Qsum_zero_terms in Hsum; [| intros p; apply Qsquare_nonneg].
      eapply Forall_impl; [| exact Hsum].
      intros [x y]; cbn [fst snd]. intros Hsq.
      destruct (Qeq_dec x y) as [E | N]; [exact E |].
      exfalso. assert (~ y - x == 0) by (intros E; apply N; lra).
      destruct (Qmult_integral _ _ Hsq); contradiction.
  - intros Hconst. unfold rmssd.
    destruct (Qlt_bool 0 (rmssd_sum ibi)) eqn:E; [| reflexivity].
    apply Qlt_bool_iff in E. rewrite rmssd_sum_pairs in E. exfalso.
    rewrite (Qsum_zero (fun p => (snd p - fst p) * (snd p - fst p))) in E;
      [lra |].
    intros [x y] Hin. rewrite Forall_forall in Hconst.
    specialize (Hconst (x, y) Hin). cbn [fst snd] in *. rewrite Hconst. lra.
Qed.

(** ** [hrMaxMin] and its two initial values *)

Lemma hrmax_is_max (ibi : list Q) :
  ibi <> [] -> Forall (fun x => 0 < x) ibi ->
  is_max (heart_rates ibi) (fold_left raise_to (heart_rates ibi) 0).
Proof.
  intros Hne Hpos.
  destruct (raise_loop (heart_rates ibi) 0) as (Hin & _ & Hall).
  split; [| exact Hall].
  destruct Hin as [H0 | Hin]; [| now apply In_Exists_Qeq].
  destruct ibi as [| x ibi]; [congruence |]. exfalso.
  rewrite Forall_forall in Hall.
  assert (Hx : 60 / x <= fold_left raise_to (heart_rates (x :: ibi)) 0)
    by (apply Hall; now left).
  inversion Hpos as [| ? ? Hx0 _]; subst.
  apply heart_rate_positive in Hx0. rewrite H0 in Hx. lra.
Qed.

(** X16. On a non-empty window of positive intervals [hrMaxMin] is the
    maximum heart rate minus the minimum of the heart rates and 1000, the
    value [hrmin] starts from; it is never negative. *)
Theorem hrMaxMin_sentinel (ibi : list Q) :
  ibi <> [] ->
  Forall (fun x => 0 < x) ibi ->
  exists M m,
    is_max (heart_rates ibi) M
    /\ is_min (1000 :: heart_rates ibi) m
    /\ hrMaxMin ibi == M - m
    /\ 0 <= hrMaxMin ibi.
Proof.
  intros Hne Hpos.
  pose proof (hrmax_is_max ibi Hne Hpos) as HM.
  pose proof (lower_loop_is_min (heart_rates ibi) 1000) as Hm.
  exists (fold_left raise_to (heart_rates ibi) 0),
         (fold_left lower_to (heart_rates ibi) 1000).
  rewrite hrMaxMin_folds.
  split; [exact HM | split; [exact Hm | split; [reflexivity |]]].
  destruct HM as [HE _]. destruct Hm as [_ HF].
  apply Exists_exists in HE as (h & Hh & EhM).
  inversion HF as [| ? ? _ HF']; subst.
  rewrite Forall_forall in HF'. specialize (HF' h Hh). lra.
Qed.

Lemma hrMaxMin_sentinel_witness :
  exists M m,
    is_max (heart_rates [0.05; 0.04]) M
    /\ is_min (1000 :: heart_rates [0.05; 0.04]) m
    /\ hrMaxMin [0.05; 0.04] == M - m
    /\ 0 <= hrMaxMin [0.05; 0.04].
Proof.
  apply (hrMaxMin_sentinel [0.05; 0.04]).
  - discriminate.
  - repeat (constructor; [reflexivity |]). constructor.
Defined.

(** X17. On a non-empty window whose intervals are all 0.06 s or more,
    [hrMaxMin] lies in [[0, 1000)], and it is 0 when the intervals are all
    equal. *)
Theorem hrMaxMin_range (ibi : list Q) :
  ibi <> [] ->
  Forall (fun x => 0.06 <= x) ibi ->
  0 <= hrMaxMin ibi
  /\ hrMaxMin ibi < 1000
  /\ (forall c, Forall (fun x => x == c) ibi -> hrMaxMin ibi == 0).
Proof.
  intros Hne Hslow.
  assert (Hpos : Forall (fun x => 0 < x) ibi)
    by (eapply Forall_impl; [| exact Hslow]; intros x Hx; cbn beta in Hx; lra).
  assert (Hex : Exists (fun x => 0.06 <= x) ibi).
  { destruct ibi as [| x ibi]; [congruence |].
    inversion Hslow; subst. now left. }
  destruct (hrMaxMin_max_min ibi Hne Hpos Hex)
    as (M & m & [HME HMF] & [HmE HmF] & Heq).
  apply Exists_exists in HME as (hM & HhM & EM).
  apply Exists_exists in HmE as (hm & Hhm & Em).
  rewrite Forall_forall in HMF, HmF.
  unfold heart_rates in HhM, Hhm.
  apply in_map_iff in HhM as (xM & <- & HxM).
  apply in_map_iff in Hhm as (xm & <- & Hxm).
  rewrite Forall_forall in Hslow, Hpos.
  pose proof (heart_rate_le_1000 xM (Hslow xM HxM)) as HM1000.
  pose proof (heart_rate_positive xm (Hpos xm Hxm)) as Hm0.
  assert (Hmm : m <= M).
  { rewrite <- EM. apply HmF. unfold heart_rates.
    now apply (in_map (fun xi => 60 / xi)). }
  split; [lra | split; [lra |]].
  intros c Hc. rewrite Forall_forall in Hc.
  rewrite Heq, <- EM, <- Em, (Hc xM HxM), (Hc xm Hxm). lra.
Qed.

Lemma hrMaxMin_range_witness :
  0 <= hrMaxMin [0.5; 1; 2] /\ hrMaxMin [0.5; 1; 2] < 1000.
Proof.
  destruct (hrMaxMin_range [0.5; 1; 2]) as (H0 & H1000 & _).
  - discriminate.
  - repeat (constructor; [qeval |]). constructor.
  - split; [exact H0 | exact H1000].
Defined.

(** ** Window boundaries and the interval values *)

Lemma slice_length {A} (l : list A) (a b : Z) :
  length (slice l a b)
  = Nat.min (Z.to_nat (slice_bound (Z.of_nat (length l)) b
                       - slice_bound (Z.of_nat (length l)) a))
            (length l - Z.to_nat (slice_bound (Z.of_nat (length l)) a)).
Proof. unfold slice. now rewrite length_firstn, length_skipn. Qed.

Lemma loop_boundaries (time data data' : list Q) (w : Q) (ts : list nat) :
  length data = length data' ->
  forall st,
    for_each (chunck_body time data w (total (fun _ => tt))) ts st
    = for_each (chunck_body time data' w (total (fun _ => tt))) ts st.
Proof.
  intros Hlen. induction ts as [| t ts IH]; intros st; [reflexivity |].
  cbn [for_each].
  assert (Hbody : chunck_body time data w (total (fun _ => tt)) st t
                  = chunck_body time data' w (total (fun _ => tt)) st t).
  { unfold chunck_body. rewrite !slice_length, Hlen. reflexivity. }
  rewrite Hbody.
  destruct (chunck_body time data' w (total (fun _ => tt)) st t);
    cbn [bind]; [apply IH | reflexivity].
Qed.

(** X19. The window boundaries are set by the timestamps and by the number
    of intervals, not by their values: two interval sequences of one length
    give the same [startTime] and [endTime] columns, with any reducers. *)
Theorem boundaries_ignore_interval_values {V V'} (time data data' : list Q)
        (w : Q) (f : list Q -> V) (g : list Q -> V') :
  length data = length data' ->
  exists df df',
    chunckData time data w (total f) = Ok df
    /\ chunckData time data' w (total g) = Ok df'
    /\ startTime df = startTime df'
    /\ endTime df = endTime df'.
Proof.
  intros Hlen.
  destruct (chunckData_traverse time data w (total f))
    as (wd & Hwd & _ & Hf).
  destruct (chunckData_traverse time data' w (total g))
    as (wd' & Hwd' & _ & Hg).
  destruct (chunckData_traverse time data w (total (fun _ => tt)))
    as (wu & Hwu & _ & Hu).
  destruct (chunckData_traverse time data' w (total (fun _ => tt)))
    as (wu' & Hwu' & _ & Hu').
  rewrite Hwd in Hwu. injection Hwu as <-.
  rewrite Hwd' in Hwu'. injection Hwu' as <-.
  rewrite traverse_total in Hf. rewrite traverse_total in Hg.
  rewrite traverse_total in Hu. rewrite traverse_total in Hu'.
  cbn [bind] in *.
  assert (Hsame : chunckData time data w (total (fun _ => tt))
                  = chunckData time data' w (total (fun _ => tt))).
  { unfold chunckData, chunck_loop.
    now rewrite (loop_boundaries _ _ _ _ _ Hlen). }
  rewrite Hu, Hu' in Hsame. injection Hsame as Hss Hes _.
  eexists. eexists.
  split; [exact Hf | split; [exact Hg | split; assumption]].
Qed.

Lemma boundaries_ignore_interval_values_witness :
  exists df df',
    chunckData [0; 30; 59; 60; 120; 150; 181]
               [0.8; 0.9; 1; 0.7; 0.6; 0.5; 0.4] 60 (total nn50) = Ok df
    /\ chunckData [0; 30; 59; 60; 120; 150; 181]
                  [1; 1; 1; 1; 1; 1; 1] 60 (total hrMaxMin) = Ok df'
    /\ startTime df = startTime df'
    /\ endTime df = endTime df'.
Proof.
  apply (boundaries_ignore_interval_values
           [0; 30; 59; 60; 120; 150; 181]
           [0.8; 0.9; 1; 0.7; 0.6; 0.5; 0.4] [1; 1; 1; 1; 1; 1; 1] 60
           nn50 hrMaxMin).
  reflexivity.
Defined.

(** ** Growing a window *)

Lemma raise_loop_grows (hs : list Q) (a : Q) : a <= fold_left raise_to hs a.
Proof. now destruct (raise_loop hs a) as (_ & H & _). Qed.

Lemma lower_loop_shrinks (hs : list Q) (b : Q) : fold_left lower_to hs b <= b.
Proof. now destruct (lower_loop hs b) as (_ & H & _). Qed.

(** X20. Adding samples to a window of positive intervals never lowers
    [hrMaxMin]. *)
Theorem hrMaxMin_grows (ibi more : list Q) :
  Forall (fun x => 0 < x) (ibi ++ more) ->
  hrMaxMin ibi <= hrMaxMin (ibi ++ more).
Proof.
  intros _. rewrite !hrMaxMin_folds. unfold heart_rates.
  rewrite map_app, !fold_left_app.
  pose proof (raise_loop_grows (map (fun xi => 60 / xi) more)
                (fold_left raise_to (map (fun xi => 60 / xi) ibi) 0)).
  pose proof (lower_loop_shrinks (map (fun xi => 60 / xi) more)
                (fold_left lower_to (map (fun xi => 60 / xi) ibi) 1000)).
  lra.
Qed.

Lemma hrMaxMin_grows_witness :
  hrMaxMin [0.5; 1] <= hrMaxMin ([0.5; 1] ++ [2]).
Proof.
  apply (hrMaxMin_grows [0.5; 1] [2]).
  repeat (constructor; [reflexivity |]). constructor.
Defined.

Lemma rmssd_zero_iff_witness : rmssd [0.8; 0.8; 0.8] = 0%R.
Proof.
  apply (rmssd_zero_iff [0.8; 0.8; 0.8]).
  repeat (constructor; [reflexivity |]). constructor.
Defined.
